(** * go-flagz: the dynamic JSON flag value ([dynjson.go])

    A shallow embedding of [DynJSONValue] -- a struct-typed configuration
    value stored behind an atomically swapped pointer -- and of the
    properties its description states about [DynJSON], [Get], [Set],
    [WithValidator], [WithNotifier], [String] and [PrettyString].

    Go objects live in an explicit store; a pointer is an address into it.
    The JSON codec ([encoding/json]) and the flag registry ([pflag]) are
    collaborators of the file and enter as type classes. *)

From Stdlib Require Import ZArith List Lia Bool Ascii.
From stdpp Require Import base option list strings.

Set Warnings "-register-all".

(** ** Go runtime types and values *)

(** An address is an index into the store. *)
Abbreviation addr := nat (only parsing).

(** The part of Go's type language the file can be handed. *)
Inductive rtype : Type :=
| TBool
| TInt
| TString
| TPtr (elem : rtype)
| TSlice (elem : rtype)
| TMap (key elem : rtype)
| TStruct (fields : list (string * rtype)).

(** Values of those types.  A pointer is [None] (nil) or an address; a
    slice or a map is [None] (nil) or its contents. *)
Inductive gval : Type :=
| VBool (b : bool)
| VInt (n : Z)
| VString (s : string)
| VPtr (p : option addr)
| VSlice (elems : option (list gval))
| VMap (entries : option (list (gval * gval)))
| VStruct (fields : list gval).

(** The zero value of a type, what [reflect.New] allocates. *)
Fixpoint zero (t : rtype) : gval :=
  match t with
  | TBool => VBool false
  | TInt => VInt 0
  | TString => VString ""
  | TPtr _ => VPtr None
  | TSlice _ => VSlice None
  | TMap _ _ => VMap None
  | TStruct fs => VStruct (map (fun f => match f with (_, ft) => zero ft end) fs)
  end.

(** [interface{}]: nil, or a dynamic type with a value of it. *)
Inductive iface : Type :=
| Nil
| Dyn (t : rtype) (v : gval).

(** Go's [error]: nil is [None]. *)
Definition error := string.

(** A call either returns or panics. *)
Inductive outcome (A : Type) : Type :=
| Ok (a : A)
| Panic (msg : string).
Arguments Ok {A} a.
Arguments Panic {A} msg.

Definition obind {A B} (m : outcome A) (k : A -> outcome B) : outcome B :=
  match m with
  | Ok a => k a
  | Panic msg => Panic msg
  end.

(** An allocated object: its type and its current contents. *)
Record object : Type := Object { otype : rtype; ovalue : gval }.

(** The store: the objects allocated so far, by address. *)
Abbreviation heap := (list object) (only parsing).

(** ** The fragment of package [reflect] that [dynjson.go] calls *)
Module reflect.

Inductive Kind : Type :=
| Invalid | Bool | Int | String | Ptr | Slice | Map | Struct.

Definition Kind_eqb (k1 k2 : Kind) : bool :=
  match k1, k2 with
  | Invalid, Invalid | Bool, Bool | Int, Int | String, String
  | Ptr, Ptr | Slice, Slice | Map, Map | Struct, Struct => true
  | _, _ => false
  end.

Definition Type_Kind (t : rtype) : Kind :=
  match t with
  | TBool => Bool
  | TInt => Int
  | TString => String
  | TPtr _ => Ptr
  | TSlice _ => Slice
  | TMap _ _ => Map
  | TStruct _ => Struct
  end.

(** [Type.Elem]: the element type; panics on a type that has none. *)
Definition Type_Elem (t : rtype) : outcome rtype :=
  match t with
  | TPtr e | TSlice e | TMap _ e => Ok e
  | _ => Panic "reflect: Elem of invalid type"
  end.

(** A [reflect.Value]: the zero Value, a value held with its type, or
    the variable a pointer refers to. *)
Inductive Value : Type :=
| Zero
| Val (t : rtype) (v : gval)
| Var (t : rtype) (a : addr).

Definition ValueOf (i : iface) : Value :=
  match i with
  | Nil => Zero
  | Dyn t v => Val t v
  end.

Definition Value_Kind (v : Value) : Kind :=
  match v with
  | Zero => Invalid
  | Val t _ | Var t _ => Type_Kind t
  end.

(** [Value.Elem]: the variable a pointer refers to, the zero Value for a
    nil pointer; it panics on a Value that is not a pointer. *)
Definition Value_Elem (v : Value) : outcome Value :=
  match v with
  | Val (TPtr e) (VPtr (Some a)) => Ok (Var e a)
  | Val (TPtr e) _ => Ok Zero
  | _ => Panic "reflect: call of reflect.Value.Elem on non-pointer Value"
  end.

(** [Value.Type]; it panics on the zero Value. *)
Definition Value_Type (v : Value) : outcome rtype :=
  match v with
  | Zero => Panic "reflect: call of reflect.Value.Type on zero Value"
  | Val t _ | Var t _ => Ok t
  end.

(** [Value.Pointer] as used under [unsafe.Pointer(...)]: the address a
    pointer holds. *)
Definition Value_Pointer (v : Value) : outcome (option addr) :=
  match v with
  | Val (TPtr _) (VPtr p) => Ok p
  | _ => Panic "reflect: call of reflect.Value.Pointer on non-pointer Value"
  end.

(** [reflect.NewAt(t, p)]: a pointer of type [*t] to the address [p]. *)
Definition NewAt (t : rtype) (p : option addr) : Value := Val (TPtr t) (VPtr p).

(** [reflect.New(t)]: allocates a zero [t] and returns the pointer to
    it. *)
Definition New (t : rtype) (h : heap) : Value * heap :=
  (Val (TPtr t) (VPtr (Some (length h))), h ++ [Object t (zero t)]).

(** [Value.Interface]: the value as an [interface{}]; for a variable, a
    copy of its current contents. *)
Definition Value_Interface (h : heap) (v : Value) : iface :=
  match v with
  | Zero => Nil
  | Val t x => Dyn t x
  | Var t a =>
      match h !! a with
      | Some o => Dyn t (ovalue o)
      | None => Nil
      end
  end.

End reflect.

(** ** Collaborators *)

(** [encoding/json] and the notifier functions.

    - [json_decode]: the bytes, the type of the target and its contents
      before the call give its contents after the call and the error;
      [json.Unmarshal] below stores the result through the pointer it is
      handed.
    - [json_Marshal], [json_MarshalIndent] (value, prefix, indent): read the
      store, return the bytes and the error.
    - [NotifierFunc]: a [func(oldValue, newValue interface{})]; [Set] never
      calls one, it only starts a goroutine on it. *)
Class Collaborators : Type := {
  NotifierFunc : Type;
  json_decode : string -> rtype -> gval -> gval * option error;
  json_Marshal : heap -> iface -> string * option error;
  json_MarshalIndent : heap -> iface -> string -> string -> string * option error
}.

(** ** The container and its operations *)

Section Model.

Context `{Collaborators}.

(** *** [DynJSONValue] *)

(** The fields of the source.  [ptr] is the [unsafe.Pointer] to the
    current instance.  A validator is handed the pointer to the candidate
    and reads the store through it; it answers with an error or nil and
    writes nothing. *)
Record DynJSONValue : Type := {
  structType : rtype;
  ptr : option addr;
  validator : option (iface -> heap -> option error);
  notifier : option NotifierFunc
}.

(** [pflag]'s [FlagSet.VarPF] (flag set, value, name, shorthand, usage)
    and this package's [setFlagDynamic], which marks the flag it is
    handed as changeable at run time; either may panic. *)
Class Registry : Type := {
  FlagSet : Type;
  Flag : Type;
  VarPF : FlagSet -> DynJSONValue -> string -> string -> string
          -> outcome (Flag * FlagSet);
  setFlagDynamic : Flag -> FlagSet -> outcome FlagSet
}.

Context `{Registry}.

#[export] Instance outcome_bind : MBind outcome := fun A B k m => obind m k.

(** Lines 24 to 26: the registration of a container that passed the
    check. *)
Definition register (flagSet : FlagSet) (dynValue : DynJSONValue) (name usage : string)
  : outcome (DynJSONValue * FlagSet) :=
  '(flag, fs) ← VarPF flagSet dynValue name "" usage;
  fs ← setFlagDynamic flag fs;
  Ok (dynValue, fs).

(** [||] evaluates [reflectVal.Elem()] only when the kind is [Ptr]. *)
Definition DynJSON (flagSet : FlagSet) (name : string) (value : iface) (usage : string)
  : outcome (DynJSONValue * FlagSet) :=
  let reflectVal := reflect.ValueOf value in
  reject ←
    (if negb (reflect.Kind_eqb (reflect.Value_Kind reflectVal) reflect.Ptr)
     then Ok true
     else e ← reflect.Value_Elem reflectVal;
          Ok (negb (reflect.Kind_eqb (reflect.Value_Kind e) reflect.Struct)));
  if reject : bool then Panic "DynJSON value must be a pointer to a struct"
  else
    p ← reflect.Value_Pointer reflectVal;
    t ← reflect.Value_Type reflectVal;
    st ← reflect.Type_Elem t;
    let dynValue :=
      {| structType := st; ptr := p; validator := None; notifier := None |} in
    register flagSet dynValue name usage.

(** What a call leaves behind besides its result: the validator calls it
    made and the goroutines it started, oldest first. *)
Inductive event : Type :=
| EvValidate (candidate : iface) (verdict : option error)
| EvGo (f : NotifierFunc) (oldValue newValue : iface).

(** The store, the container ([*d]) and the events so far. *)
Record state : Type := State {
  mem : heap;
  dyn : DynJSONValue;
  trace : list event
}.

Definition set_mem (h : heap) (s : state) : state :=
  {| mem := h; dyn := dyn s; trace := trace s |}.

Definition set_dyn (d : DynJSONValue) (s : state) : state :=
  {| mem := mem s; dyn := d; trace := trace s |}.

Definition log (e : event) (s : state) : state :=
  {| mem := mem s; dyn := dyn s; trace := trace s ++ [e] |}.

(** Calls thread the state and may panic. *)
Definition M (A : Type) : Type := state -> outcome (A * state).

#[export] Instance M_ret : MRet M := fun A a s => Ok (a, s).
#[export] Instance M_bind : MBind M := fun A B k m s =>
  match m s with
  | Ok (a, s') => k a s'
  | Panic msg => Panic msg
  end.

Definition gets {A} (f : state -> A) : M A := fun s => Ok (f s, s).
Definition modify (f : state -> state) : M unit := fun s => Ok (tt, f s).
Definition lift {A} (o : outcome A) : M A := fun s =>
  match o with
  | Ok a => Ok (a, s)
  | Panic msg => Panic msg
  end.

(** [reflect.New(t)] and [Value.Interface()] on the store. *)
Definition reflect_New (t : rtype) : M reflect.Value := fun s =>
  let '(v, h) := reflect.New t (mem s) in Ok (v, set_mem h s).

Definition Interface (v : reflect.Value) : M iface :=
  gets (fun s => reflect.Value_Interface (mem s) v).

(** The variable a non-nil pointer designates: its static type, its
    address and the object there. *)
Definition target (v : iface) (s : state) : option (rtype * addr * object) :=
  match v with
  | Dyn (TPtr t) (VPtr (Some a)) =>
      match mem s !! a with
      | Some o => Some (t, a, o)
      | None => None
      end
  | _ => None
  end.

(** Overwrites the contents of the object [o] at [a]. *)
Definition poke (a : addr) (o : object) (x : gval) (s : state) : state :=
  set_mem (<[a := Object (otype o) x]> (mem s)) s.

(** [json.Unmarshal(data, v)]: decodes into the variable [v] points to;
    anything but a non-nil pointer is an [InvalidUnmarshalError]. *)
Definition json_Unmarshal (data : string) (v : iface) : M (option error) := fun s =>
  match target v s with
  | Some (t, a, o) =>
      let '(x, err) := json_decode data t (ovalue o) in Ok (err, poke a o x s)
  | None => Ok (Some "json: Unmarshal(non-pointer or nil)", s)
  end.

(** [atomic.LoadPointer(&d.ptr)] and [atomic.SwapPointer(&d.ptr, new)]. *)
Definition atomic_LoadPointer : M (option addr) := gets (fun s => ptr (dyn s)).

Definition with_ptr (p : option addr) (d : DynJSONValue) : DynJSONValue :=
  {| structType := structType d; ptr := p;
     validator := validator d; notifier := notifier d |}.

Definition atomic_SwapPointer (new : option addr) : M (option addr) := fun s =>
  Ok (ptr (dyn s), set_dyn (with_ptr new (dyn s)) s).

(** A call of the validator, on the caller's goroutine. *)
Definition call_validator (f : iface -> heap -> option error) (x : iface)
  : M (option error) := fun s =>
  let verdict := f x (mem s) in Ok (verdict, log (EvValidate x verdict) s).

(** [go f(oldValue, newValue)]. *)
Definition go (f : NotifierFunc) (oldValue newValue : iface) : M unit :=
  modify (log (EvGo f oldValue newValue)).

(** *** Methods, in the order of the source *)

Definition unsafeToStoredType (p : option addr) : M iface :=
  t ← gets (fun s => structType (dyn s));
  Interface (reflect.NewAt t p).

Definition Get : M iface :=
  p ← atomic_LoadPointer;
  unsafeToStoredType p.

Definition Set_ (input : string) : M (option error) :=
  t ← gets (fun s => structType (dyn s));
  n ← reflect_New t;
  someStruct ← Interface n;
  err ← json_Unmarshal input someStruct;
  match err with
  | Some e => mret (Some e)
  | None =>
      v ← gets (fun s => validator (dyn s));
      err ← match v with
            | Some f => call_validator f someStruct
            | None => mret None
            end;
      match err with
      | Some e => mret (Some e)
      | None =>
          new ← lift (reflect.Value_Pointer (reflect.ValueOf someStruct));
          oldPtr ← atomic_SwapPointer new;
          nf ← gets (fun s => notifier (dyn s));
          match nf with
          | Some f =>
              oldValue ← unsafeToStoredType oldPtr;
              go f oldValue someStruct
          | None => mret tt
          end;;
          mret None
      end
  end.

Definition WithValidator (f : option (iface -> heap -> option error)) : M unit :=
  modify (fun s => set_dyn {| structType := structType (dyn s); ptr := ptr (dyn s);
                              validator := f; notifier := notifier (dyn s) |} s).

Definition WithNotifier (f : option NotifierFunc) : M unit :=
  modify (fun s => set_dyn {| structType := structType (dyn s); ptr := ptr (dyn s);
                              validator := validator (dyn s); notifier := f |} s).

Definition Type_ : M string := mret "dyn_json".

Definition PrettyString : M string :=
  v ← Get;
  '(out, err) ← gets (fun s => json_MarshalIndent (mem s) v "" "  ");
  match err with
  | Some _ => mret "ERR"
  | None => mret out
  end.

Definition String_ : M string :=
  v ← Get;
  '(out, err) ← gets (fun s => json_Marshal (mem s) v);
  match err with
  | Some _ => mret "ERR"
  | None => mret out
  end.

(** *** Reading a state *)

(** The object an interface value points to. *)
Definition deref (h : heap) (v : iface) : option object :=
  match v with
  | Dyn (TPtr _) (VPtr (Some a)) => h !! a
  | _ => None
  end.

(** The pointer [Set] hands to the decoder, the validator and the
    notifier: the address [reflect.New] returns in state [s]. *)
Definition candidate (s : state) : iface :=
  Dyn (TPtr (structType (dyn s))) (VPtr (Some (length (mem s)))).

(** What decoding [input] into a fresh instance gives. *)
Definition decoded (input : string) (s : state) : gval * option error :=
  json_decode input (structType (dyn s)) (zero (structType (dyn s))).

(** The state once the fresh instance holds [x]. *)
Definition staged (x : gval) (s : state) : state :=
  set_mem (mem s ++ [Object (structType (dyn s)) x]) s.

(** The validator's answer for the instance [x]; nil without one. *)
Definition verdict (x : gval) (s : state) : option error :=
  match validator (dyn s) with
  | Some f => f (candidate s) (mem (staged x s))
  | None => None
  end.

Definition validation_events (x : gval) (s : state) : list event :=
  match validator (dyn s) with
  | Some f => [EvValidate (candidate s) (f (candidate s) (mem (staged x s)))]
  | None => []
  end.

Definition notification_events (s : state) : list event :=
  match notifier (dyn s) with
  | Some f =>
      [EvGo f (Dyn (TPtr (structType (dyn s))) (VPtr (ptr (dyn s)))) (candidate s)]
  | None => []
  end.

(** The state a successful [Set] leaves. *)
Definition published (x : gval) (s : state) : state :=
  {| mem := mem s ++ [Object (structType (dyn s)) x];
     dyn := with_ptr (Some (length (mem s))) (dyn s);
     trace := trace s ++ validation_events x s ++ notification_events s |}.

(** The goroutines a trace starts. *)
Definition started (t : list event) : list (NotifierFunc * iface * iface) :=
  omap (fun e => match e with
                 | EvGo f o n => Some (f, o, n)
                 | EvValidate _ _ => None
                 end) t.

(** The validator calls of a trace. *)
Definition validated (t : list event) : list (iface * option error) :=
  omap (fun e => match e with
                 | EvValidate c r => Some (c, r)
                 | EvGo _ _ _ => None
                 end) t.

(** [n] calls in a row, with their results. *)
Fixpoint repeatM {A} (n : nat) (m : M A) : M (list A) :=
  match n with
  | 0 => mret []
  | S k => a ← m; l ← repeatM k m; mret (a :: l)
  end.

(** The operations of a container, and a caller that runs a list of
    them. *)
Inductive op : Type :=
| OpGet
| OpSet (input : string)
| OpWithValidator (f : option (iface -> heap -> option error))
| OpWithNotifier (f : option NotifierFunc)
| OpType
| OpPrettyString
| OpString.

Definition run_op (o : op) : M unit :=
  match o with
  | OpGet => Get;; mret tt
  | OpSet input => Set_ input;; mret tt
  | OpWithValidator f => WithValidator f
  | OpWithNotifier f => WithNotifier f
  | OpType => Type_;; mret tt
  | OpPrettyString => PrettyString;; mret tt
  | OpString => String_;; mret tt
  end.

Fixpoint run_ops (os : list op) : M unit :=
  match os with
  | [] => mret tt
  | o :: os' => run_op o;; run_ops os'
  end.

(** *** Concurrent callers

    [Set] and [Get] cut at their accesses to shared memory.  A caller is
    at one of these points; the scheduler picks who moves next. *)

Inductive set_pc : Type :=
| SetNew (input : string)
| SetUnmarshal (input : string) (someStruct : iface)
| SetValidate (someStruct : iface)
| SetSwap (someStruct : iface)
| SetNotify (oldPtr : option addr) (someStruct : iface)
| SetDone (err : option error).

(** Where [Set] goes once the decoder has returned [err]. *)
Definition after_decode (someStruct : iface) (err : option error) : set_pc :=
  match err with
  | Some e => SetDone (Some e)
  | None => SetValidate someStruct
  end.

Definition set_step (pc : set_pc) : M set_pc :=
  match pc with
  | SetNew input =>
      t ← gets (fun s => structType (dyn s));
      n ← reflect_New t;
      someStruct ← Interface n;
      mret (SetUnmarshal input someStruct)
  | SetUnmarshal input someStruct =>
      err ← json_Unmarshal input someStruct;
      mret (after_decode someStruct err)
  | SetValidate someStruct =>
      v ← gets (fun s => validator (dyn s));
      err ← match v with
            | Some f => call_validator f someStruct
            | None => mret None
            end;
      match err with
      | Some e => mret (SetDone (Some e))
      | None => mret (SetSwap someStruct)
      end
  | SetSwap someStruct =>
      new ← lift (reflect.Value_Pointer (reflect.ValueOf someStruct));
      oldPtr ← atomic_SwapPointer new;
      mret (SetNotify oldPtr someStruct)
  | SetNotify oldPtr someStruct =>
      nf ← gets (fun s => notifier (dyn s));
      match nf with
      | Some f =>
          oldValue ← unsafeToStoredType oldPtr;
          go f oldValue someStruct
      | None => mret tt
      end;;
      mret (SetDone None)
  | SetDone err => mret (SetDone err)
  end.

Fixpoint set_run (fuel : nat) (pc : set_pc) : M set_pc :=
  match fuel with
  | 0 => mret pc
  | S k => pc' ← set_step pc; set_run k pc'
  end.

Inductive get_pc : Type :=
| GetLoad
| GetDone (v : iface).

Definition get_step (pc : get_pc) : M get_pc :=
  match pc with
  | GetLoad => v ← Get; mret (GetDone v)
  | GetDone v => mret (GetDone v)
  end.

(** A caller: inside [Set], inside [Get], or inside the decoder, which
    fills its target piece by piece and has already determined the
    contents [x] and the error [err] it will end with. *)
Inductive thread : Type :=
| TSet (pc : set_pc)
| TDecoding (someStruct : iface) (x : gval) (err : option error)
| TGet (pc : get_pc).

Definition store (v : iface) (x : gval) : M unit := fun s =>
  match target v s with
  | Some (_, a, o) => Ok (tt, poke a o x s)
  | None => Ok (tt, s)
  end.

Definition thread_step (t : thread) : M thread :=
  match t with
  | TSet pc => pc' ← set_step pc; mret (TSet pc')
  | TDecoding someStruct x err =>
      store someStruct x;; mret (TSet (after_decode someStruct err))
  | TGet pc => pc' ← get_step pc; mret (TGet pc')
  end.

Record config : Type := Config {
  shared : state;
  threads : list thread
}.

(** What the other callers can see of a step. *)
Inductive label : Type :=
| LSpawn
| LTau (i : nat)
| LSwap (i : nat) (old new : option addr)
| LLoad (i : nat) (p : option addr).

Definition label_of (i : nat) (t : thread) (s s' : state) : label :=
  match t with
  | TSet (SetSwap _) => LSwap i (ptr (dyn s)) (ptr (dyn s'))
  | TGet GetLoad => LLoad i (ptr (dyn s))
  | _ => LTau i
  end.

Definition entry (t : thread) : Prop :=
  t = TGet GetLoad \/ exists input, t = TSet (SetNew input).

Inductive cstep : config -> label -> config -> Prop :=
| step_spawn c t :
    entry t ->
    cstep c LSpawn (Config (shared c) (threads c ++ [t]))
| step_thread c i t t' s' :
    threads c !! i = Some t ->
    thread_step t (shared c) = Ok (t', s') ->
    cstep c (label_of i t (shared c) s') (Config s' (<[i := t']> (threads c)))
| step_decode_begin c i input v t a o x err y :
    threads c !! i = Some (TSet (SetUnmarshal input v)) ->
    target v (shared c) = Some (t, a, o) ->
    json_decode input t (ovalue o) = (x, err) ->
    cstep c (LTau i)
          (Config (poke a o y (shared c)) (<[i := TDecoding v x err]> (threads c)))
| step_decode_more c i v x err t a o y :
    threads c !! i = Some (TDecoding v x err) ->
    target v (shared c) = Some (t, a, o) ->
    cstep c (LTau i) (Config (poke a o y (shared c)) (threads c)).

Inductive exec : config -> list label -> config -> Prop :=
| exec_nil c : exec c [] c
| exec_cons c l c' ls c'' : cstep c l c' -> exec c' ls c'' -> exec c (l :: ls) c''.

(** The pointer in the cell after the swaps of a history, starting from
    [p]. *)
Definition swapped (p : option addr) (ls : list label) : option addr :=
  fold_left (fun q l => match l with
                        | LSwap _ _ new => new
                        | _ => q
                        end) ls p.

Definition is_swap (l : label) : bool :=
  match l with
  | LSwap _ _ _ => true
  | _ => false
  end.

(** An instance that is whole: what the decoder made of one input,
    without error, or else the seed. *)
Definition decoded_whole (t : rtype) (o : object) : Prop :=
  exists input x, json_decode input t (zero t) = (x, None) /\ o = Object t x.

Definition whole (t : rtype) (seed o : object) : Prop :=
  o = seed \/ decoded_whole t o.

(** A scheduler that can be run: it starts a [Get] or a [Set], lets
    caller [i] take its next step, or lets the decoder of caller [i]
    leave [y] in its target. *)
Inductive choice : Type :=
| CGet
| CSet (input : string)
| CMove (i : nat)
| CFill (i : nat) (y : gval).

Definition sched (ch : choice) (c : config) : option (label * config) :=
  match ch with
  | CGet => Some (LSpawn, Config (shared c) (threads c ++ [TGet GetLoad]))
  | CSet input => Some (LSpawn, Config (shared c) (threads c ++ [TSet (SetNew input)]))
  | CMove i =>
      match threads c !! i with
      | Some t =>
          match thread_step t (shared c) with
          | Ok (t', s') =>
              Some (label_of i t (shared c) s', Config s' (<[i := t']> (threads c)))
          | Panic _ => None
          end
      | None => None
      end
  | CFill i y =>
      match threads c !! i with
      | Some (TSet (SetUnmarshal input v)) =>
          match target v (shared c) with
          | Some (t, a, o) =>
              let '(x, err) := json_decode input t (ovalue o) in
              Some (LTau i, Config (poke a o y (shared c))
                                   (<[i := TDecoding v x err]> (threads c)))
          | None => None
          end
      | Some (TDecoding v x err) =>
          match target v (shared c) with
          | Some (_, a, o) => Some (LTau i, Config (poke a o y (shared c)) (threads c))
          | None => None
          end
      | _ => None
      end
  end.

Fixpoint run (chs : list choice) (c : config) : option (list label * config) :=
  match chs with
  | [] => Some ([], c)
  | ch :: chs' =>
      match sched ch c with
      | Some (l, c') =>
          match run chs' c' with
          | Some (ls, c'') => Some (l :: ls, c'')
          | None => None
          end
      | None => None
      end
  end.

(** A step that touches neither the store nor the container. *)
Definition quiet (s s' : state) : Prop := mem s' = mem s /\ dyn s' = dyn s.

(** *** The invariant of concurrent callers

    For a container of type [T] seeded with [seed], and the addresses
    [P] published so far. *)
Section Sharing.

Variable T : rtype.
Variable seed : object.

(** How far the instance a caller holds has come. *)
Inductive phase : Type :=
| Fresh
| Filling (x : gval) (err : option error)
| Decoded.

(** The instance a caller has allocated and not yet published. *)
Definition holding (t : thread) : option (iface * phase) :=
  match t with
  | TSet (SetUnmarshal _ v) => Some (v, Fresh)
  | TDecoding v x err => Some (v, Filling x err)
  | TSet (SetValidate v) | TSet (SetSwap v) => Some (v, Decoded)
  | _ => None
  end.

Definition private (t : thread) : option addr :=
  match holding t with
  | Some (Dyn (TPtr _) (VPtr (Some b)), _) => Some b
  | _ => None
  end.

Definition content_ok (ph : phase) (o : object) : Prop :=
  match ph with
  | Fresh => o = Object T (zero T)
  | Filling x err =>
      otype o = T /\ exists input, json_decode input T (zero T) = (x, err)
  | Decoded => decoded_whole T o
  end.

Definition thread_ok (h : heap) (P : list addr) (t : thread) : Prop :=
  forall v ph, holding t = Some (v, ph) ->
    exists b o, v = Dyn (TPtr T) (VPtr (Some b)) /\ (b ∉ P)
                /\ h !! b = Some o /\ content_ok ph o.

Definition distinct (ts : list thread) : Prop :=
  forall i j ti tj b,
    ts !! i = Some ti -> ts !! j = Some tj ->
    private ti = Some b -> private tj = Some b -> i = j.

Record inv (P : list addr) (c : config) : Prop := Inv {
  inv_type : structType (dyn (shared c)) = T;
  inv_ptr : exists a, ptr (dyn (shared c)) = Some a /\ a ∈ P;
  inv_pub : forall a, a ∈ P ->
              exists o, mem (shared c) !! a = Some o /\ whole T seed o;
  inv_threads : forall i t, threads c !! i = Some t ->
                  thread_ok (mem (shared c)) P t;
  inv_distinct : distinct (threads c)
}.

Definition publish (l : label) (P : list addr) : list addr :=
  match l with
  | LSwap _ _ (Some b) => b :: P
  | _ => P
  end.

(** What one step of the system guarantees. *)
Definition step_post (P : list addr) (c : config) (l : label) (c' : config) : Prop :=
  inv (publish l P) c'
  /\ (forall a o, a ∈ P -> mem (shared c) !! a = Some o ->
                  mem (shared c') !! a = Some o)
  /\ ptr (dyn (shared c')) = swapped (ptr (dyn (shared c))) [l]
  /\ (forall i p, l = LLoad i p ->
        p = ptr (dyn (shared c))
        /\ threads c' !! i = Some (TGet (GetDone (Dyn (TPtr T) (VPtr p)))))
  /\ (forall i old new, l = LSwap i old new ->
        old = ptr (dyn (shared c))
        /\ exists b o, new = Some b /\ (b ∉ P)
                       /\ mem (shared c) !! b = Some o
                       /\ mem (shared c') !! b = Some o
                       /\ decoded_whole T o).

End Sharing.

(** The arguments of [DynJSON]: those whose dynamic type is a pointer to
    a struct, and among them those that point to a struct. *)
Definition struct_pointer_type (value : iface) : bool :=
  match value with
  | Dyn (TPtr (TStruct _)) _ => true
  | _ => false
  end.

Definition points_to_struct (value : iface) : bool :=
  match value with
  | Dyn (TPtr (TStruct _)) (VPtr (Some _)) => true
  | _ => false
  end.

(** *** Batches of updates, and what a history did *)

(** The container refers to an allocated object of its stored type: what
    [unsafeToStoredType] relies on when it retypes the address. *)
Definition well_typed (s : state) : Prop :=
  exists a o,
    ptr (dyn s) = Some a /\ mem s !! a = Some o /\ otype o = structType (dyn s).

(** The instance [Get] points to. *)
Definition current (s : state) : option object :=
  match ptr (dyn s) with
  | Some a => mem s !! a
  | None => None
  end.

(** [Set] on each input in turn, with the results. *)
Fixpoint Sets (inputs : list string) : M (list (option error)) :=
  match inputs with
  | [] => mret []
  | input :: rest => r ← Set_ input; rs ← Sets rest; mret (r :: rs)
  end.

(** Notifications that hand on from [v] to [v']: each [oldValue] is the
    [newValue] of the one before. *)
Fixpoint linked (v : iface) (l : list (NotifierFunc * iface * iface)) (v' : iface) : Prop :=
  match l with
  | [] => v = v'
  | (_, o, n) :: l' => o = v /\ linked n l' v'
  end.

(** The number of calls that returned nil. *)
Fixpoint successes (rs : list (option error)) : nat :=
  match rs with
  | [] => 0
  | None :: rs' => S (successes rs')
  | Some _ :: rs' => successes rs'
  end.

(** The instance current after a batch: that of the last input whose
    [Set] returned nil, or [cur] when none did. *)
Fixpoint last_published (t : rtype) (inputs : list string) (rs : list (option error))
    (cur : object) : object :=
  match inputs, rs with
  | input :: inputs', r :: rs' =>
      last_published t inputs' rs'
        (match r with
         | None => Object t (fst (json_decode input t (zero t)))
         | Some _ => cur
         end)
  | _, _ => cur
  end.

(** The swaps caller [i] made in a history. *)
Fixpoint swaps_by (i : nat) (ls : list label) : nat :=
  match ls with
  | [] => 0
  | LSwap j _ _ :: ls' => (if Nat.eqb j i then 1 else 0) + swaps_by i ls'
  | _ :: ls' => swaps_by i ls'
  end.

(** All swaps of a history, as (old, new). *)
Fixpoint swaps (ls : list label) : list (option addr * option addr) :=
  match ls with
  | [] => []
  | LSwap _ old new :: ls' => (old, new) :: swaps ls'
  | _ :: ls' => swaps ls'
  end.

(** A caller that is past its swap. *)
Definition swapped_once (t : thread) : nat :=
  match t with
  | TSet (SetNotify _ _) | TSet (SetDone None) => 1
  | _ => 0
  end.

(** A caller between its swap and its [go] statement. *)
Definition notifying (t : thread) : nat :=
  match t with
  | TSet (SetNotify _ _) => 1
  | _ => 0
  end.

(** The swaps behind caller [i], by the point it has reached. *)
Definition credit (c : config) (i : nat) : nat :=
  match threads c !! i with
  | Some t => swapped_once t
  | None => 0
  end.

(** The callers between their swap and their [go] statement. *)
Definition pending (ts : list thread) : nat := sum_list_with notifying ts.

(** What the goroutines started so far have to do with the swaps [S] made
    so far, for a container of type [T] with the notifier [g]. *)
Record notified (T : rtype) (g : option NotifierFunc)
    (S : list (option addr * option addr)) (c : config) : Prop := Notified {
  nf_notifier : notifier (dyn (shared c)) = g;
  nf_started : forall f o n,
      (f, o, n) ∈ started (trace (shared c)) ->
      g = Some f
      /\ exists old new,
           (old, new) ∈ S /\ o = Dyn (TPtr T) (VPtr old) /\ n = Dyn (TPtr T) (VPtr new);
  nf_pending : forall i old v,
      threads c !! i = Some (TSet (SetNotify old v)) ->
      exists new, (old, new) ∈ S /\ v = Dyn (TPtr T) (VPtr new);
  nf_count : length (started (trace (shared c))) + pending (threads c) <= length S
}.

(** What the swaps [S] made so far have to do with the validator calls so
    far, for a container of type [T] with a validator attached. *)
Record gated (T : rtype) (S : list (option addr * option addr)) (c : config) : Prop := Gated {
  gt_validator : is_Some (validator (dyn (shared c)));
  gt_swapping : forall i v,
      threads c !! i = Some (TSet (SetSwap v)) ->
      EvValidate v None ∈ trace (shared c);
  gt_swapped : forall old new,
      (old, new) ∈ S ->
      EvValidate (Dyn (TPtr T) (VPtr new)) None ∈ trace (shared c)
}.
End Model.

(** ** A concrete program: a [Timeout] configuration

    The instance of the collaborators at which the statements below are
    exercised: a struct with one integer field, a decoder and an encoder
    for exactly that struct, and a flag set that is a list of names. *)

Module Example.

Definition Settings : rtype := TStruct [("Timeout", TInt)].

Definition quote : string := String "034"%char EmptyString.
Definition newline : string := String "010"%char EmptyString.

Definition digit (c : ascii) : option Z :=
  let n := (Z.of_nat (nat_of_ascii c) - 48)%Z in
  if ((0 <=? n) && (n <=? 9))%Z then Some n else None.

(** The digits of a number up to the closing brace of the object. *)
Fixpoint digits (s : string) (seen : bool) (acc : Z) : option Z :=
  match s with
  | EmptyString => None
  | String c r =>
      match digit c with
      | Some n => digits r true (10 * acc + n)%Z
      | None =>
          if (seen && String.eqb s "}")%bool then Some acc else None
      end
  end.

Definition number (s : string) : option Z :=
  match s with
  | String "-"%char r => Z.opp <$> digits r false 0
  | _ => digits s false 0
  end.

Fixpoint strip_prefix (p s : string) : option string :=
  match p, s with
  | EmptyString, _ => Some s
  | String a p', String b s' => if Ascii.eqb a b then strip_prefix p' s' else None
  | _, EmptyString => None
  end.

Definition skip_space (s : string) : string :=
  match s with
  | String " "%char r => r
  | _ => s
  end.

(** The decimal digits of a number, most significant first. *)
Fixpoint show_digits (fuel : nat) (n : Z) (acc : string) : string :=
  match fuel with
  | O => acc
  | S f =>
      let acc' := String (ascii_of_nat (Z.to_nat (48 + n mod 10))) acc in
      if (n / 10 =? 0)%Z then acc' else show_digits f (n / 10) acc'
  end.

Definition show (n : Z) : string :=
  if (n <? 0)%Z then "-" +:+ show_digits (S (Z.to_nat (Z.log2 (- n)))) (- n) ""
  else show_digits (S (Z.to_nat (Z.log2 n))) n "".

Definition key : string := "{" +:+ quote +:+ "Timeout" +:+ quote +:+ ":".

Definition decode (data : string) (t : rtype) (v : gval) : gval * option error :=
  if String.eqb data "null" then (v, None)
  else if String.eqb data "{}" then (v, None)
  else
    match strip_prefix key data with
    | Some rest =>
        match number (skip_space rest) with
        | Some n =>
            match t with
            | TStruct [(_, TInt)] => (VStruct [VInt n], None)
            | _ => (v, Some "json: cannot unmarshal number")
            end
        | None => (v, Some "json: cannot unmarshal into Go struct field Timeout of type int")
        end
    | None => (v, Some "invalid character looking for beginning of value")
    end.

Definition marshal (h : heap) (v : iface) : string * option error :=
  match deref h v with
  | Some (Object _ (VStruct [VInt n])) => (key +:+ show n +:+ "}", None)
  | _ => ("", Some "json: unsupported value")
  end.

Definition marshal_indent (h : heap) (v : iface) (prefix indent : string)
  : string * option error :=
  match deref h v with
  | Some (Object _ (VStruct [VInt n])) =>
      ("{" +:+ newline +:+ prefix +:+ indent +:+ quote +:+ "Timeout" +:+ quote +:+ ": "
       +:+ show n +:+ newline +:+ prefix +:+ "}", None)
  | _ => ("", Some "json: unsupported value")
  end.

Definition toy : Collaborators :=
  {| NotifierFunc := string;
     json_decode := decode;
     json_Marshal := marshal;
     json_MarshalIndent := marshal_indent |}.

(** A flag set that refuses a name it already has, as [pflag] does. *)
Definition toy_registry : @Registry toy :=
  {| FlagSet := list string;
     Flag := string;
     VarPF := fun fs _ name _ _ =>
                if bool_decide (name ∈ fs) then Panic ("flag redefined: " +:+ name)
                else Ok (name, fs ++ [name]);
     setFlagDynamic := fun _ fs => Ok fs |}.

(** The flag set before and after the registration of [timeouts]. *)
Definition flags0 : @FlagSet toy toy_registry := [].
Definition flags1 : @FlagSet toy toy_registry := ["timeouts"].

(** The default [{Timeout: 30}] at address 0, and a pointer to it. *)
Definition seed : object := Object Settings (VStruct [VInt 30]).
Definition store0 : heap := [seed].
Definition default : iface := Dyn (TPtr Settings) (VPtr (Some 0)).

(** A nil [*Settings]. *)
Definition nil_pointer : iface := Dyn (TPtr Settings) (VPtr None).

Definition d0 : @DynJSONValue toy :=
  {| structType := Settings; ptr := Some 0; validator := None; notifier := None |}.

Definition s0 : @state toy := State store0 d0 [].

(** Rejects [Timeout <= 0]. *)
Definition positive_timeout (v : iface) (h : heap) : option error :=
  match deref h v with
  | Some (Object _ (VStruct [VInt n])) =>
      if (n <=? 0)%Z then Some "timeout must be positive" else None
  | _ => Some "not a configuration"
  end.

Definition timeout (n : Z) : string := key +:+ " " +:+ show n +:+ "}".
Definition oops : string := key +:+ " " +:+ quote +:+ "oops" +:+ quote +:+ "}".

Definition onChange : @NotifierFunc toy := "onChange".

(** A container with the validator and a notifier attached. *)
Definition d1 : @DynJSONValue toy :=
  {| structType := Settings; ptr := Some 0;
     validator := Some positive_timeout; notifier := Some onChange |}.

Definition s1 : @state toy := State store0 d1 [].

(** Two callers of the container [s1]: a [Set] of [{"Timeout": 5}] and a
    [Get].  In the first schedule the [Get] loads while the decoder of
    the [Set] has left a half-written instance in the store; in the
    second the [Set] swaps before the [Get] loads. *)
Definition k0 : @config toy := Config s1 [].

Definition half_written : gval := VStruct [VInt 77].

Definition to_load : list choice :=
  [CSet (timeout 5); CGet; CMove 0; CFill 0 half_written].
Definition from_load : list choice := [CMove 0; CMove 0; CMove 0; CMove 0].

Definition to_swap : list choice :=
  [CSet (timeout 5); CGet; CMove 0; CFill 0 half_written; CMove 0; CMove 0].
Definition from_swap : list choice := [CMove 1; CMove 0].

Definition history (chs : list choice) (c : @config toy) : list label :=
  match @run toy chs c with
  | Some (ls, _) => ls
  | None => []
  end.

Definition reach (chs : list choice) (c : @config toy) : @config toy :=
  match @run toy chs c with
  | Some (_, c') => c'
  | None => c
  end.

(** The scenario of the description: two updates, a validator, a third
    update; the results of the three [Set]s and of the [Get] after each. *)
Definition scenario : @M toy (list (option error) * list iface) :=
  r1 ← @Set_ toy (timeout 60);
  v1 ← @Get toy;
  r2 ← @Set_ toy oops;
  v2 ← @Get toy;
  @WithValidator toy (Some positive_timeout);;
  r3 ← @Set_ toy (timeout (-5));
  v3 ← @Get toy;
  mret ([r1; r2; r3], [v1; v2; v3]).

(** A batch of updates for the container [s1], a list of operations for
    [s0], and the second schedule above run to its end. *)
Definition batch : list string := [timeout 5; oops; timeout 7].

Definition session : list (@op toy) := [OpSet (timeout 60); OpSet oops; OpGet].

Definition to_end : list choice := to_swap ++ [CMove 0] ++ from_swap.

End Example.

(** * Properties *)

Section Properties.

Context `{Registry}.

(** ** What each call computes *)

Lemma snoc_insert_last (h : heap) (o o' : object) :
  <[length h := o']> (h ++ [o]) = h ++ [o'].
Proof.
  rewrite insert_app_r_alt by lia.
  replace (length h - length h) with 0 by lia. reflexivity.
Qed.

Lemma snoc_lookup_last (h : heap) (o : object) : (h ++ [o]) !! length h = Some o.
Proof. apply list_lookup_middle. reflexivity. Qed.

Lemma Get_eq (s : state) :
  Get s = Ok (Dyn (TPtr (structType (dyn s))) (VPtr (ptr (dyn s))), s).
Proof. reflexivity. Qed.

(** The first two statements of [Set]: the fresh instance holds what the
    decoder made of the input. *)
Lemma Set_decodes (input : string) (s : state) :
  (t ← gets (fun s => structType (dyn s));
   n ← reflect_New t;
   someStruct ← Interface n;
   err ← json_Unmarshal input someStruct;
   mret (someStruct, err)) s
  = Ok (candidate s, snd (decoded input s), staged (fst (decoded input s)) s).
Proof.
  unfold decoded, staged, candidate.
  cbv [mbind M_bind gets reflect_New reflect.New Interface reflect.Value_Interface
       json_Unmarshal target poke mret M_ret set_mem mem dyn trace].
  destruct s as [h d tr]; cbn [mem dyn trace].
  rewrite snoc_lookup_last. cbn [ovalue otype].
  destruct (json_decode input (structType d) (zero (structType d))) as [x err].
  rewrite snoc_insert_last. reflexivity.
Qed.

Ltac set_prefix input s Hd :=
  let H := fresh in
  pose proof (Set_decodes input s) as H; rewrite Hd in H;
  cbn [fst snd] in H; revert H; unfold Set_;
  cbv [mbind M_bind gets mret M_ret];
  destruct (reflect_New _ _) as [[? ?]|]; [|discriminate];
  destruct (Interface _ _) as [[? ?]|]; [|discriminate];
  destruct (json_Unmarshal input _ _) as [[? ?]|]; [|discriminate];
  intros [= -> -> ->].

Lemma Set_decode_error (input : string) (s : state) (x : gval) (e : error) :
  decoded input s = (x, Some e) ->
  Set_ input s = Ok (Some e, staged x s).
Proof. intros Hd. set_prefix input s Hd. reflexivity. Qed.

Lemma Set_rejected (input : string) (s : state) (x : gval) (e : error) :
  decoded input s = (x, None) ->
  verdict x s = Some e ->
  Set_ input s = Ok (Some e, log (EvValidate (candidate s) (Some e)) (staged x s)).
Proof.
  intros Hd Hv. set_prefix input s Hd.
  unfold verdict in Hv. cbn [staged set_mem dyn].
  destruct (validator (dyn s)) as [f|]; [|discriminate].
  unfold call_validator. cbn [staged set_mem mem] in *. rewrite Hv. reflexivity.
Qed.

Lemma Set_published (input : string) (s : state) (x : gval) :
  decoded input s = (x, None) ->
  verdict x s = None ->
  Set_ input s = Ok (None, published x s).
Proof.
  intros Hd Hv. set_prefix input s Hd.
  unfold verdict, published, validation_events, notification_events in *.
  destruct s as [h [T p vf nf] tr].
  unfold staged, candidate, set_mem in *.
  cbn [mem dyn trace structType ptr validator notifier] in *.
  destruct vf as [f|]; destruct nf as [g|];
    cbv [call_validator lift reflect.Value_Pointer reflect.ValueOf atomic_SwapPointer
         unsafeToStoredType go modify log set_dyn with_ptr Interface gets
         reflect.Value_Interface reflect.NewAt mbind M_bind mret M_ret
         mem dyn trace structType ptr validator notifier];
    rewrite ?Hv; cbn [app]; rewrite ?app_nil_r, <- ?app_assoc; reflexivity.
Qed.

(** [Set] always returns, in one of three ways. *)
Lemma Set_cases (input : string) (s : state) :
  (exists x e, decoded input s = (x, Some e)
               /\ Set_ input s = Ok (Some e, staged x s))
  \/ (exists x e, decoded input s = (x, None) /\ verdict x s = Some e
                  /\ Set_ input s
                     = Ok (Some e, log (EvValidate (candidate s) (Some e)) (staged x s)))
  \/ (exists x, decoded input s = (x, None) /\ verdict x s = None
                /\ Set_ input s = Ok (None, published x s)).
Proof.
  destruct (decoded input s) as [x [e|]] eqn:Hd.
  - left. exists x, e. split; [reflexivity|]. by apply Set_decode_error.
  - destruct (verdict x s) as [e|] eqn:Hv.
    + right; left. exists x, e. repeat split; try done. by apply Set_rejected.
    + right; right. exists x. repeat split; try done. by apply Set_published.
Qed.

(** ** Shared facts *)

Lemma deref_snoc (h : heap) (o' : object) (v : iface) (o : object) :
  deref h v = Some o -> deref (h ++ [o']) v = Some o.
Proof.
  destruct v as [|[] []]; try discriminate. destruct p; [|discriminate].
  cbn. apply lookup_app_l_Some.
Qed.

Lemma deref_app (h h' : heap) (v : iface) (o : object) :
  deref h v = Some o -> deref (h ++ h') v = Some o.
Proof.
  destruct v as [|[] []]; try discriminate. destruct p; [|discriminate].
  cbn. apply lookup_app_l_Some.
Qed.

Lemma repeat_Get (n : nat) (s : state) :
  repeatM n Get s
  = Ok (replicate n (Dyn (TPtr (structType (dyn s))) (VPtr (ptr (dyn s)))), s).
Proof.
  induction n as [|n IH]; [reflexivity|].
  cbn [repeatM replicate]. unfold mbind, M_bind at 1.
  rewrite Get_eq. unfold mbind, M_bind at 1. rewrite IH. reflexivity.
Qed.

Lemma started_validation (x : gval) (s : state) : started (validation_events x s) = [].
Proof. unfold validation_events. by destruct (validator (dyn s)). Qed.

Lemma validated_notification (s : state) : validated (notification_events s) = [].
Proof. unfold notification_events. by destruct (notifier (dyn s)). Qed.

(** Whatever [Set] returns, it leaves the type alone and only adds one
    object to the store. *)
Lemma Set_frame (input : string) (s : state) :
  exists r s' o,
    Set_ input s = Ok (r, s')
    /\ structType (dyn s') = structType (dyn s)
    /\ mem s' = mem s ++ [o]
    /\ otype o = structType (dyn s)
    /\ (r = None -> ptr (dyn s') = Some (length (mem s)))
    /\ (r <> None -> dyn s' = dyn s).
Proof.
  destruct (Set_cases input s) as [(x & e & _ & ->)|[(x & e & _ & _ & ->)|(x & _ & _ & ->)]];
    eexists _, _, (Object (structType (dyn s)) x);
    (split; [reflexivity|]); cbn; repeat split; congruence.
Qed.

Lemma run_op_frame (o : op) (s : state) :
  exists s' h,
    run_op o s = Ok (tt, s')
    /\ structType (dyn s') = structType (dyn s)
    /\ mem s' = mem s ++ h.
Proof.
  destruct o as [|input|f|f| | |]; cbn [run_op].
  - exists s, []. rewrite app_nil_r. done.
  - destruct (Set_frame input s) as (r & s' & o & E & HT & Hm & _).
    exists s', [o]. unfold mbind, M_bind. rewrite E. done.
  - eexists _, []. rewrite app_nil_r. done.
  - eexists _, []. rewrite app_nil_r. done.
  - exists s, []. rewrite app_nil_r. done.
  - exists s, []. rewrite app_nil_r. unfold PrettyString, mbind, M_bind.
    rewrite Get_eq. unfold gets.
    destruct (json_MarshalIndent _ _ _ _) as [out [e|]]; done.
  - exists s, []. rewrite app_nil_r. unfold String_, mbind, M_bind.
    rewrite Get_eq. unfold gets.
    destruct (json_Marshal _ _) as [out [e|]]; done.
Qed.

Lemma run_ops_frame (os : list op) (s : state) :
  exists s' h,
    run_ops os s = Ok (tt, s')
    /\ structType (dyn s') = structType (dyn s)
    /\ mem s' = mem s ++ h.
Proof.
  revert s. induction os as [|o os IH]; intros s.
  - exists s, []. rewrite app_nil_r. done.
  - destruct (run_op_frame o s) as (s1 & h1 & E1 & T1 & M1).
    destruct (IH s1) as (s2 & h2 & E2 & T2 & M2).
    exists s2, (h1 ++ h2). cbn [run_ops]. unfold mbind, M_bind. rewrite E1.
    repeat split; [done|congruence|]. rewrite M2, M1, app_assoc. done.
Qed.

(** ** One caller *)

(** C1.  Read-after-write: when the input decodes without error into the
    stored struct type and the validator, if there is one, accepts the
    decoded instance, [Set] returns nil, and [Get] afterwards -- once or
    any number of times -- returns a pointer to an instance equal to the
    decoded one. *)
Theorem Set_read_after_write (input : string) (s : state) (x : gval) :
  decoded input s = (x, None) ->
  verdict x s = None ->
  exists s' v,
    Set_ input s = Ok (None, s')
    /\ Get s' = Ok (v, s')
    /\ deref (mem s') v = Some (Object (structType (dyn s)) x)
    /\ forall n, repeatM n Get s' = Ok (replicate n v, s').
Proof.
  intros Hd Hv. exists (published x s), (candidate s).
  split; [by apply Set_published|].
  split; [reflexivity|]. split.
  - cbn. apply snoc_lookup_last.
  - intros n. apply repeat_Get.
Qed.

(** C2.  Decode failure: when the input does not decode, [Set] returns
    the decoder's error, [Get] returns the pointer it returned before and
    the instance behind it is as it was, the container is untouched, and
    the trace has no new event: no validator call, no goroutine. *)
Theorem Set_decode_failure (input : string) (s : state) (x : gval) (e : error) :
  decoded input s = (x, Some e) ->
  exists s' v,
    Set_ input s = Ok (Some e, s')
    /\ Get s = Ok (v, s)
    /\ Get s' = Ok (v, s')
    /\ (forall o, deref (mem s) v = Some o -> deref (mem s') v = Some o)
    /\ dyn s' = dyn s
    /\ trace s' = trace s.
Proof.
  intros Hd. exists (staged x s), (Dyn (TPtr (structType (dyn s))) (VPtr (ptr (dyn s)))).
  split; [by apply Set_decode_error|].
  repeat split. intros o. apply deref_snoc.
Qed.

(** C3.  Validation: with a validator attached, every [Set] whose input
    decodes calls it exactly once, before returning, on the pointer to
    the fresh instance while that instance holds the decoded contents,
    and returns its answer.  When the answer is an error, the container
    is untouched, [Get] returns the pointer it returned before with the
    instance behind it as it was, and no goroutine is started. *)
Theorem Set_runs_validator
    (input : string) (s : state) (x : gval) (f : iface -> heap -> option error) :
  validator (dyn s) = Some f ->
  decoded input s = (x, None) ->
  exists s' evs,
    Set_ input s = Ok (f (candidate s) (mem (staged x s)), s')
    /\ trace s' = trace s ++ evs
    /\ validated evs = [(candidate s, f (candidate s) (mem (staged x s)))]
    /\ deref (mem (staged x s)) (candidate s) = Some (Object (structType (dyn s)) x)
    /\ forall e, f (candidate s) (mem (staged x s)) = Some e ->
         dyn s' = dyn s
         /\ started evs = []
         /\ exists v, Get s = Ok (v, s) /\ Get s' = Ok (v, s')
                      /\ forall o, deref (mem s) v = Some o -> deref (mem s') v = Some o.
Proof.
  intros Hf Hd.
  assert (Hv : verdict x s = f (candidate s) (mem (staged x s)))
    by (unfold verdict; by rewrite Hf).
  assert (Hc : deref (mem (staged x s)) (candidate s)
               = Some (Object (structType (dyn s)) x))
    by (cbn; apply snoc_lookup_last).
  destruct (f (candidate s) (mem (staged x s))) as [e|] eqn:Hr.
  - exists (log (EvValidate (candidate s) (Some e)) (staged x s)),
           [EvValidate (candidate s) (Some e)].
    split; [by apply Set_rejected|]. repeat split; try done.
    exists (Dyn (TPtr (structType (dyn s))) (VPtr (ptr (dyn s)))).
    repeat split. intros o. apply deref_snoc.
  - exists (published x s), (validation_events x s ++ notification_events s).
    split; [by apply Set_published|]. repeat split; try done.
    unfold validated. rewrite omap_app. fold (validated (notification_events s)).
    rewrite validated_notification, app_nil_r.
    unfold validation_events. rewrite Hf, Hr. reflexivity.
Qed.

(** C5.  Notification: with a notifier attached, a [Set] that returns
    nil starts exactly one goroutine, on that notifier, with the value
    [Get] returned before the call as [oldValue] and the value [Get]
    returns after it as [newValue]; a [Set] that returns an error starts
    none.  [Set] always returns. *)
Theorem Set_notifies (input : string) (s : state) (g : NotifierFunc) :
  notifier (dyn s) = Some g ->
  exists r s' evs oldValue newValue,
    Set_ input s = Ok (r, s')
    /\ trace s' = trace s ++ evs
    /\ Get s = Ok (oldValue, s)
    /\ Get s' = Ok (newValue, s')
    /\ started evs = match r with
                     | None => [(g, oldValue, newValue)]
                     | Some _ => []
                     end.
Proof.
  intros Hg.
  destruct (Set_cases input s) as [(x & e & _ & E)|[(x & e & _ & _ & E)|(x & _ & _ & E)]];
    rewrite E.
  - eexists _, _, [], _, _. rewrite app_nil_r. repeat split.
  - eexists _, _, [_], _, _. repeat split.
  - eexists _, _, _, _, _. split; [reflexivity|]. repeat split.
    unfold started. rewrite omap_app. fold (started (validation_events x s)).
    rewrite started_validation. unfold notification_events. rewrite Hg.
    reflexivity.
Qed.

(** C6.  The stored type and the published instances: no operation, and
    so no sequence of operations, changes [structType] or any object
    already in the store, so what an earlier [Get] pointed to is what it
    still points to; and the instance a successful [Set] publishes is an
    object of exactly the stored type at an address that held nothing
    before the call. *)
Theorem stored_type_fixed_instances_fresh :
  (forall (os : list op) (s : state),
      exists s',
        run_ops os s = Ok (tt, s')
        /\ structType (dyn s') = structType (dyn s)
        /\ (forall a o, mem s !! a = Some o -> mem s' !! a = Some o)
        /\ (forall v o, Get s = Ok (v, s) -> deref (mem s) v = Some o ->
                        deref (mem s') v = Some o))
  /\ (forall (input : string) (s : state),
        exists r s',
          Set_ input s = Ok (r, s')
          /\ structType (dyn s') = structType (dyn s)
          /\ (forall a o, mem s !! a = Some o -> mem s' !! a = Some o)
          /\ (r = None ->
              exists a x,
                ptr (dyn s') = Some a
                /\ mem s !! a = None
                /\ mem s' !! a = Some (Object (structType (dyn s)) x))
          /\ (r <> None -> ptr (dyn s') = ptr (dyn s))).
Proof.
  split.
  - intros os s. destruct (run_ops_frame os s) as (s' & h & E & HT & Hm).
    exists s'. repeat split; try done.
    + intros a o Ha. rewrite Hm. by apply lookup_app_l_Some.
    + intros v o _ Hv. rewrite Hm. by apply deref_app.
  - intros input s. destruct (Set_frame input s) as (r & s' & o & E & HT & Hm & Ho & Hp & Hq).
    exists r, s'. repeat split; try done.
    + intros a o' Ha. rewrite Hm. by apply lookup_app_l_Some.
    + intros Hr. exists (length (mem s)), (ovalue o). split; [by apply Hp|].
      split; [by apply lookup_ge_None_2|].
      rewrite Hm, snoc_lookup_last. destruct o as [t y]. cbn in *. by subst.
    + intros Hr. by rewrite (Hq Hr).
Qed.

Lemma DynJSON_refuses
    (flagSet : FlagSet) (name : string) (value : iface) (usage : string) :
  points_to_struct value = false ->
  DynJSON flagSet name value usage = Panic "DynJSON value must be a pointer to a struct".
Proof.
  destruct value as [|t v]; [reflexivity|].
  destruct t as [| | |e| | |]; try reflexivity.
  destruct e; destruct v as [| | |[a|]| | |]; try reflexivity; discriminate.
Qed.

Lemma DynJSON_registers
    (flagSet : FlagSet) (name : string) (fields : list (string * rtype)) (a : addr)
    (usage : string) :
  DynJSON flagSet name (Dyn (TPtr (TStruct fields)) (VPtr (Some a))) usage
  = register flagSet
      {| structType := TStruct fields; ptr := Some a;
         validator := None; notifier := None |} name usage.
Proof. reflexivity. Qed.

(** C7, as amended.  The check of [DynJSON]: an argument that does not
    point to a struct -- the nil interface, a value that is not a
    pointer, a pointer to something else than a struct, a nil pointer of
    any type -- makes [DynJSON] panic; for a non-nil pointer to a struct
    the check passes and [DynJSON] is the registration of the container
    built from it. *)
Theorem DynJSON_check
    (flagSet : FlagSet) (name : string) (value : iface) (usage : string) :
  (points_to_struct value = false ->
     DynJSON flagSet name value usage
     = Panic "DynJSON value must be a pointer to a struct")
  /\ (forall fields a,
        value = Dyn (TPtr (TStruct fields)) (VPtr (Some a)) ->
        DynJSON flagSet name value usage
        = register flagSet
            {| structType := TStruct fields; ptr := Some a;
               validator := None; notifier := None |} name usage).
Proof.
  split.
  - apply DynJSON_refuses.
  - intros fields a ->. apply DynJSON_registers.
Qed.

Lemma register_returns
    (flagSet : FlagSet) (d d' : DynJSONValue) (name usage : string) (fs : FlagSet) :
  register flagSet d name usage = Ok (d', fs) -> d' = d.
Proof.
  unfold register, mbind, outcome_bind, obind.
  destruct (VarPF _ _ _ _ _) as [[flag fs1]|]; [|discriminate].
  destruct (setFlagDynamic _ _); [|discriminate]. by intros [= -> ->].
Qed.

(** C8.  The seed: a container that [DynJSON] returns holds the address
    the caller passed and the struct type it points to, with no
    validator and no notifier; [DynJSON] has no access to the store, and
    on any store [Get] returns the caller's pointer itself, which points
    to the caller's object. *)
Theorem DynJSON_publishes_seed
    (flagSet : FlagSet) (name : string) (value : iface) (usage : string)
    (d : DynJSONValue) (fs : FlagSet) :
  DynJSON flagSet name value usage = Ok (d, fs) ->
  exists fields a,
    value = Dyn (TPtr (TStruct fields)) (VPtr (Some a))
    /\ structType d = TStruct fields
    /\ ptr d = Some a
    /\ validator d = None
    /\ notifier d = None
    /\ forall h tr,
         Get (State h d tr) = Ok (value, State h d tr)
         /\ deref h value = h !! a.
Proof.
  intros E. destruct (points_to_struct value) eqn:Hp.
  - destruct value as [|t v]; [discriminate|].
    destruct t as [| | |e| | |]; try discriminate.
    destruct e as [| | | | | |fields]; try discriminate.
    destruct v as [| | |[a|]| | |]; try discriminate.
    rewrite DynJSON_registers in E.
    apply register_returns in E. subst d. exists fields, a. repeat split.
  - rewrite (DynJSON_refuses flagSet name value usage Hp) in E. discriminate.
Qed.

(** C9.  Rendering: [String] is the bytes [json.Marshal] returns for the
    value [Get] returns, [PrettyString] those of [json.MarshalIndent]
    with an empty prefix and two spaces; when the encoder returns an
    error each is the string [ERR].  Neither panics nor changes the
    state. *)
Theorem rendering (s : state) :
  exists v,
    Get s = Ok (v, s)
    /\ String_ s = Ok (match json_Marshal (mem s) v with
                       | (_, Some _) => "ERR"
                       | (out, None) => out
                       end, s)
    /\ PrettyString s = Ok (match json_MarshalIndent (mem s) v "" "  " with
                            | (_, Some _) => "ERR"
                            | (out, None) => out
                            end, s).
Proof.
  exists (Dyn (TPtr (structType (dyn s))) (VPtr (ptr (dyn s)))).
  split; [reflexivity|]. split.
  - unfold String_, mbind, M_bind. rewrite Get_eq. unfold gets.
    by destruct (json_Marshal _ _) as [out [e|]].
  - unfold PrettyString, mbind, M_bind. rewrite Get_eq. unfold gets.
    by destruct (json_MarshalIndent _ _ _ _) as [out [e|]].
Qed.

(** C10.  JSON null: given that the decoder, on the input [null], leaves
    a zero instance of the stored type as it is and reports no error,
    and that the validator, if there is one, accepts that instance,
    [Set "null"] returns nil and publishes a fresh instance that holds
    the zero value of the stored type. *)
Theorem Set_null (s : state) :
  decoded "null" s = (zero (structType (dyn s)), None) ->
  verdict (zero (structType (dyn s))) s = None ->
  exists s' v,
    Set_ "null" s = Ok (None, s')
    /\ ptr (dyn s') = Some (length (mem s))
    /\ Get s' = Ok (v, s')
    /\ deref (mem s') v
       = Some (Object (structType (dyn s)) (zero (structType (dyn s)))).
Proof.
  intros Hd Hv. exists (published (zero (structType (dyn s))) s), (candidate s).
  split; [by apply Set_published|]. repeat split.
  cbn. apply snoc_lookup_last.
Qed.

(** ** Concurrent callers *)

(** The scheduler that runs takes steps of the system. *)
Lemma sched_sound (ch : choice) (c : config) (l : label) (c' : config) :
  sched ch c = Some (l, c') -> cstep c l c'.
Proof.
  destruct ch as [|input|i|i y]; cbn [sched].
  - intros [= <- <-]. apply step_spawn. by left.
  - intros [= <- <-]. apply step_spawn. right. by exists input.
  - destruct (threads c !! i) as [t|] eqn:Hi; [|discriminate].
    destruct (thread_step t (shared c)) as [[t' s']|] eqn:Hs; [|discriminate].
    intros [= <- <-]. by apply step_thread.
  - destruct (threads c !! i) as [[[ |input v| | | | ]|v x err|]|] eqn:Hi; try discriminate.
    + destruct (target v (shared c)) as [[[t a] o]|] eqn:Ht; [|discriminate].
      destruct (json_decode input t (ovalue o)) as [x err] eqn:Hd.
      intros [= <- <-]. by apply (step_decode_begin c i input v t a o x err y).
    + destruct (target v (shared c)) as [[[t a] o]|] eqn:Ht; [|discriminate].
      intros [= <- <-]. by apply (step_decode_more c i v x err t a o y).
Qed.

Lemma run_sound (chs : list choice) (c : config) (ls : list label) (c' : config) :
  run chs c = Some (ls, c') -> exec c ls c'.
Proof.
  revert c ls. induction chs as [|ch chs IH]; intros c ls; cbn [run].
  - intros [= <- <-]. apply exec_nil.
  - destruct (sched ch c) as [[l c1]|] eqn:Hs; [|discriminate].
    destruct (run chs c1) as [[ls1 c2]|] eqn:Hr; [|discriminate].
    intros [= <- <-]. apply (exec_cons c l c1); [by apply (sched_sound ch)|by apply IH].
Qed.

Ltac unfold_steps :=
  cbn [set_run set_step after_decode]; cbv [mbind M_bind gets mret M_ret].

Lemma Set_as_steps (input : string) (s : state) :
  set_run 5 (SetNew input) s
  = match Set_ input s with
    | Ok (r, s') => Ok (SetDone r, s')
    | Panic msg => Panic msg
    end.
Proof.
  unfold Set_. unfold_steps.
  destruct (reflect_New _ _) as [[n s1]|]; [|reflexivity].
  destruct (Interface n s1) as [[c s2]|]; [|reflexivity]. unfold_steps.
  destruct (json_Unmarshal input c s2) as [[[e|] s3]|]; unfold_steps; [reflexivity| |reflexivity].
  destruct (validator (dyn s3)) as [f|]; unfold_steps.
  - destruct (call_validator f c s3) as [[[e|] s4]|]; unfold_steps; [reflexivity| |reflexivity].
    destruct (lift _ s4) as [[p s5]|]; [|reflexivity].
    destruct (atomic_SwapPointer p s5) as [[q s6]|]; unfold_steps; [|reflexivity].
    destruct (notifier (dyn s6)) as [g|]; [|reflexivity].
    destruct (unsafeToStoredType q s6) as [[o s7]|]; [|reflexivity].
    destruct (go g o c s7) as [[[] s8]|]; reflexivity.
  - destruct (lift _ s3) as [[p s5]|]; [|reflexivity].
    destruct (atomic_SwapPointer p s5) as [[q s6]|]; unfold_steps; [|reflexivity].
    destruct (notifier (dyn s6)) as [g|]; [|reflexivity].
    destruct (unsafeToStoredType q s6) as [[o s7]|]; [|reflexivity].
    destruct (go g o c s7) as [[[] s8]|]; reflexivity.
Qed.


Section SharingProofs.

Variable T : rtype.
Variable seed : object.

Local Abbreviation inv := (inv T seed).
Local Abbreviation inv_type := (inv_type T seed).
Local Abbreviation inv_ptr := (inv_ptr T seed).
Local Abbreviation inv_pub := (inv_pub T seed).
Local Abbreviation inv_threads := (inv_threads T seed).
Local Abbreviation inv_distinct := (inv_distinct T seed).
Local Abbreviation thread_ok := (thread_ok T).
Local Abbreviation content_ok := (content_ok T).
Local Abbreviation decoded_whole := (decoded_whole T).
Local Abbreviation step_post := (step_post T seed).

Lemma private_holding (h : heap) (P : list addr) (t : thread) (v : iface) (ph : phase) :
  thread_ok h P t -> holding t = Some (v, ph) ->
  exists b o, v = Dyn (TPtr T) (VPtr (Some b)) /\ private t = Some b
              /\ (b ∉ P) /\ h !! b = Some o /\ content_ok ph o.
Proof.
  intros Hok Hh. destruct (Hok v ph Hh) as (b & o & -> & Hn & Hb & Hc).
  exists b, o. unfold private. rewrite Hh. done.
Qed.

Lemma private_inv (h : heap) (P : list addr) (t : thread) (b : addr) :
  thread_ok h P t -> private t = Some b -> (b ∉ P) /\ is_Some (h !! b).
Proof.
  intros Hok Hp. unfold private in Hp.
  destruct (holding t) as [[v ph]|] eqn:Hh; [|discriminate].
  destruct (Hok v ph Hh) as (b' & o & -> & Hn & Hb & Hc).
  injection Hp as <-. eauto.
Qed.

Lemma thread_ok_frame (h h' : heap) (P P' : list addr) (t : thread) :
  thread_ok h P t ->
  (forall b o, private t = Some b -> h !! b = Some o -> h' !! b = Some o) ->
  (forall b, private t = Some b -> b ∉ P -> b ∉ P') ->
  thread_ok h' P' t.
Proof.
  intros Hok Hfr HP v ph Hh.
  destruct (private_holding h P t v ph Hok Hh) as (b & o & -> & Hp & Hn & Hb & Hc).
  exists b, o. repeat split; eauto.
Qed.

Lemma thread_ok_no_holding (h : heap) (P : list addr) (t : thread) :
  holding t = None -> thread_ok h P t.
Proof. intros Hh v ph E. congruence. Qed.

(** One caller moves; the others keep what they hold. *)
Lemma inv_move (P P' : list addr) (c : config) (i : nat) (t t' : thread) (s' : state) :
  inv P c ->
  threads c !! i = Some t ->
  structType (dyn s') = T ->
  (exists a, ptr (dyn s') = Some a /\ a ∈ P') ->
  (forall a, a ∈ P' -> exists o, mem s' !! a = Some o /\ whole T seed o) ->
  thread_ok (mem s') P' t' ->
  (forall j tj, j <> i -> threads c !! j = Some tj -> thread_ok (mem s') P' tj) ->
  (forall b, private t' = Some b ->
             private t = Some b
             \/ forall j tj, threads c !! j = Some tj -> private tj <> Some b) ->
  inv P' (Config s' (<[i := t']> (threads c))).
Proof.
  intros HI Hi HT Hptr Hpub Hok Hothers Hpriv.
  constructor; cbn [shared threads]; try done.
  - intros j tj Hj. apply list_lookup_insert_Some in Hj as [(<- & <- & _)|(Hne & Hj)]; eauto.
  - intros j k tj tk b Hj Hk Hbj Hbk.
    apply list_lookup_insert_Some in Hj as [(<- & <- & _)|(Hnej & Hj)];
      apply list_lookup_insert_Some in Hk as [(<- & <- & _)|(Hnek & Hk)]; try done.
    + destruct (Hpriv b Hbj) as [Hb|Hb].
      * apply (inv_distinct P c HI _ _ _ _ b Hi Hk Hb Hbk).
      * exfalso. by apply (Hb k tk Hk).
    + destruct (Hpriv b Hbk) as [Hb|Hb].
      * apply (inv_distinct P c HI _ _ _ _ b Hj Hi Hbj Hb).
      * exfalso. by apply (Hb j tj Hj).
    + apply (inv_distinct P c HI _ _ _ _ b Hj Hk Hbj Hbk).
Qed.


(** *** The steps of one caller *)

Lemma step_SetNew (input : string) (s : state) :
  thread_step (TSet (SetNew input)) s
  = Ok (TSet (SetUnmarshal input (candidate s)), staged (zero (structType (dyn s))) s).
Proof. reflexivity. Qed.

Lemma step_SetUnmarshal (input : string) (v : iface) (s : state) t b o x err :
  target v s = Some (t, b, o) ->
  json_decode input t (ovalue o) = (x, err) ->
  thread_step (TSet (SetUnmarshal input v)) s
  = Ok (TSet (after_decode v err), poke b o x s).
Proof.
  intros Ht Hd. cbn [thread_step set_step].
  unfold mbind, M_bind, json_Unmarshal. rewrite Ht, Hd. reflexivity.
Qed.

Lemma step_TDecoding (v : iface) (x : gval) (err : option error) (s : state) t b o :
  target v s = Some (t, b, o) ->
  thread_step (TDecoding v x err) s = Ok (TSet (after_decode v err), poke b o x s).
Proof.
  intros Ht. cbn [thread_step]. unfold mbind, M_bind, store. rewrite Ht. reflexivity.
Qed.

Lemma step_SetValidate (v : iface) (s : state) :
  exists r s',
    thread_step (TSet (SetValidate v)) s
    = Ok (TSet (match r with Some e => SetDone (Some e) | None => SetSwap v end), s')
    /\ quiet s s'.
Proof.
  cbn [thread_step set_step]. unfold mbind, M_bind, gets.
  destruct (validator (dyn s)) as [f|].
  - unfold call_validator. destruct (f v (mem s)) as [e|].
    + by eexists (Some e), _.
    + by eexists None, _.
  - by eexists None, _.
Qed.

Lemma step_SetSwap (b : addr) (t : rtype) (s : state) :
  thread_step (TSet (SetSwap (Dyn (TPtr t) (VPtr (Some b))))) s
  = Ok (TSet (SetNotify (ptr (dyn s)) (Dyn (TPtr t) (VPtr (Some b)))),
        set_dyn (with_ptr (Some b) (dyn s)) s).
Proof. reflexivity. Qed.

Lemma step_SetNotify (old : option addr) (v : iface) (s : state) :
  exists s', thread_step (TSet (SetNotify old v)) s = Ok (TSet (SetDone None), s')
             /\ quiet s s'.
Proof.
  cbn [thread_step set_step]. unfold mbind, M_bind, gets.
  destruct (notifier (dyn s)) as [f|]; by eexists.
Qed.

Lemma step_GetLoad (s : state) :
  thread_step (TGet GetLoad) s
  = Ok (TGet (GetDone (Dyn (TPtr (structType (dyn s))) (VPtr (ptr (dyn s))))), s).
Proof. reflexivity. Qed.

Lemma target_pointer (t : rtype) (b : addr) (s : state) (o : object) :
  mem s !! b = Some o -> target (Dyn (TPtr t) (VPtr (Some b))) s = Some (t, b, o).
Proof. intros E. cbn. by rewrite E. Qed.

Lemma target_inv (v : iface) (s : state) t b o :
  target v s = Some (t, b, o) ->
  v = Dyn (TPtr t) (VPtr (Some b)) /\ mem s !! b = Some o.
Proof.
  destruct v as [|[] []]; try discriminate. destruct p as [a|]; [|discriminate].
  cbn. destruct (mem s !! a) eqn:E; [|discriminate]. by intros [= -> -> ->].
Qed.

(** *** Preservation, by the kind of step *)

Lemma inv_quiet (P : list addr) (c : config) (i : nat) (t t' : thread) (s' : state) :
  inv P c ->
  threads c !! i = Some t ->
  quiet (shared c) s' ->
  thread_ok (mem s') P t' ->
  (forall b, private t' = Some b -> private t = Some b) ->
  inv P (Config s' (<[i := t']> (threads c))).
Proof.
  intros HI Hi [Hm Hd] Hok Hp.
  apply (inv_move P P c i t t' s' HI Hi); rewrite ?Hm, ?Hd;
    [apply HI | apply HI | apply HI | by rewrite <- Hm | | ].
  - intros j tj _ Hj. by apply (inv_threads P c HI j).
  - intros b Hb. left. by apply Hp.
Qed.

Lemma inv_write (P : list addr) (c : config) (i : nat) (t t' : thread)
    (b : addr) (o : object) (x : gval) :
  inv P c ->
  threads c !! i = Some t ->
  private t = Some b ->
  thread_ok (<[b := Object (otype o) x]> (mem (shared c))) P t' ->
  (forall b', private t' = Some b' -> b' = b) ->
  inv P (Config (poke b o x (shared c)) (<[i := t']> (threads c)))
  /\ forall a o', a ∈ P -> mem (shared c) !! a = Some o' ->
                  mem (poke b o x (shared c)) !! a = Some o'.
Proof.
  intros HI Hi Hb Hok Hp.
  destruct (private_inv _ _ _ _ (inv_threads P c HI i t Hi) Hb) as [HbP _].
  assert (Hfr : forall a o', a ∈ P -> mem (shared c) !! a = Some o' ->
                             mem (poke b o x (shared c)) !! a = Some o').
  { intros a o' Ha Hl. unfold poke, set_mem; cbn [mem].
    rewrite list_lookup_insert_ne; [done|]. intros ->. done. }
  split; [|done].
  apply (inv_move P P c i t t' _ HI Hi); [apply HI | apply HI | | done | | ].
  - intros a Ha. destruct (inv_pub P c HI a Ha) as (o' & Hl & Hw). eauto.
  - intros j tj Hne Hj.
    apply (thread_ok_frame (mem (shared c)) _ P P tj (inv_threads P c HI j tj Hj)); [|done].
    intros b' o' Hb' Hl. unfold poke, set_mem; cbn [mem].
    rewrite list_lookup_insert_ne; [done|].
    intros ->. apply Hne. by apply (inv_distinct P c HI j i tj t b').
  - intros b' Hb'. left. by rewrite (Hp b' Hb').
Qed.


Lemma published_allocated (P : list addr) (c : config) (a : addr) :
  inv P c -> a ∈ P -> a < length (mem (shared c)).
Proof.
  intros HI Ha. destruct (inv_pub P c HI a Ha) as (o & Hl & _).
  by apply lookup_lt_Some in Hl.
Qed.

Lemma inv_alloc (P : list addr) (c : config) (i : nat) (input : string) :
  inv P c ->
  threads c !! i = Some (TSet (SetNew input)) ->
  inv P (Config (staged (zero (structType (dyn (shared c)))) (shared c))
                (<[i := TSet (SetUnmarshal input (candidate (shared c)))]> (threads c))).
Proof.
  intros HI Hi. pose proof (inv_type P c HI) as HT.
  apply (inv_move P P c i _ _ _ HI Hi); unfold staged, set_mem; cbn [mem dyn].
  - done.
  - apply HI.
  - intros a Ha. destruct (inv_pub P c HI a Ha) as (o & Hl & Hw).
    exists o. split; [by apply lookup_app_l_Some|done].
  - intros v ph [= <- <-]. unfold candidate. rewrite HT.
    exists (length (mem (shared c))), (Object T (zero T)). repeat split.
    + intros Ha. apply (published_allocated P c _ HI) in Ha. lia.
    + apply list_lookup_middle. done.
  - intros j tj _ Hj.
    apply (thread_ok_frame (mem (shared c)) _ P P tj (inv_threads P c HI j tj Hj)); [|done].
    intros b o _ Hl. by apply lookup_app_l_Some.
  - intros b [= <-]. right. intros j tj Hj Hb.
    destruct (private_inv _ _ _ _ (inv_threads P c HI j tj Hj) Hb) as [_ [o Hl]].
    apply lookup_lt_Some in Hl. lia.
Qed.

Lemma inv_swap (P : list addr) (c : config) (i : nat) (b : addr) (t : rtype) :
  inv P c ->
  threads c !! i = Some (TSet (SetSwap (Dyn (TPtr t) (VPtr (Some b))))) ->
  inv (b :: P)
      (Config (set_dyn (with_ptr (Some b) (dyn (shared c))) (shared c))
              (<[i := TSet (SetNotify (ptr (dyn (shared c))) (Dyn (TPtr t) (VPtr (Some b))))]>
                 (threads c)))
  /\ (b ∉ P)
  /\ exists o, mem (shared c) !! b = Some o /\ decoded_whole o.
Proof.
  intros HI Hi.
  destruct (private_holding _ _ _ _ _ (inv_threads P c HI i _ Hi) eq_refl)
    as (b' & o & [= -> <-] & Hp & HbP & Hl & Hw).
  split; [|eauto].
  apply (inv_move P (b :: P) c i _ _ _ HI Hi); unfold set_dyn, with_ptr; cbn [mem dyn ptr structType].
  - apply HI.
  - exists b. split; [done|]. apply elem_of_cons; by left.
  - intros a [->|Ha]%elem_of_cons.
    + exists o. split; [done|]. by right.
    + apply (inv_pub P c HI a Ha).
  - by apply thread_ok_no_holding.
  - intros j tj Hne Hj.
    apply (thread_ok_frame (mem (shared c)) _ P (b :: P) tj (inv_threads P c HI j tj Hj)); [done|].
    intros b' Hb' Hn [->|Hin]%elem_of_cons; [|done].
    apply Hne. by apply (inv_distinct P c HI j i _ _ b Hj Hi).
  - intros b' [=].
Qed.

Lemma inv_spawn (P : list addr) (c : config) (t : thread) :
  inv P c -> entry t -> inv P (Config (shared c) (threads c ++ [t])).
Proof.
  intros HI Ht.
  assert (Hh : holding t = None) by (destruct Ht as [->|[input ->]]; reflexivity).
  assert (Hp : forall b, private t <> Some b) by (intros b; unfold private; by rewrite Hh).
  constructor; cbn [shared threads]; try apply HI.
  - intros j tj [Hj|[_ Hj]]%lookup_app_Some.
    + by apply (inv_threads P c HI j).
    + apply list_lookup_singleton_Some in Hj as [_ <-]. by apply thread_ok_no_holding.
  - intros j k tj tk b [Hj|[_ Hj]]%lookup_app_Some [Hk|[_ Hk]]%lookup_app_Some Hbj Hbk.
    + by apply (inv_distinct P c HI j k tj tk b).
    + apply list_lookup_singleton_Some in Hk as [_ <-]. by destruct (Hp b).
    + apply list_lookup_singleton_Some in Hj as [_ <-]. by destruct (Hp b).
    + apply list_lookup_singleton_Some in Hj as [_ <-]. by destruct (Hp b).
Qed.


Lemma thread_step_returns (h : heap) (P : list addr) (t : thread) (s : state) :
  thread_ok h P t -> exists t' s', thread_step t s = Ok (t', s').
Proof.
  intros Hok.
  destruct t as [pc|v x err|pc]; [destruct pc as [input|input v|v|v|old v|r]| |destruct pc as [|v]].
  - eexists _, _. apply step_SetNew.
  - cbn [thread_step set_step]. unfold mbind, M_bind, json_Unmarshal.
    destruct (target v s) as [[[t a] o]|]; [|by eexists _, _].
    destruct (json_decode input t (ovalue o)) as [x err]. by eexists _, _.
  - destruct (step_SetValidate v s) as (r & s' & E & _). eauto.
  - destruct (private_holding _ _ _ _ _ Hok eq_refl) as (b & o & -> & _).
    eexists _, _. apply step_SetSwap.
  - destruct (step_SetNotify old v s) as (s' & E & _). eauto.
  - by eexists _, _.
  - cbn [thread_step]. unfold mbind, M_bind, store.
    destruct (target v s) as [[[t a] o]|]; by eexists _, _.
  - eexists _, _. apply step_GetLoad.
  - by eexists _, _.
Qed.

Lemma step_post_tau (P : list addr) (c : config) (i : nat) (c' : config) :
  inv P c' ->
  (forall a o, a ∈ P -> mem (shared c) !! a = Some o -> mem (shared c') !! a = Some o) ->
  dyn (shared c') = dyn (shared c) ->
  step_post P c (LTau i) c'.
Proof.
  intros HI Hfr Hd. split; [done|]. split; [done|]. split; [by rewrite Hd|].
  split; intros; discriminate.
Qed.

Lemma thread_ok_after_decode (h : heap) (P : list addr) (b : addr) (x : gval)
    (err : option error) (input : string) :
  b ∉ P ->
  h !! b = Some (Object T x) ->
  json_decode input T (zero T) = (x, err) ->
  thread_ok h P (TSet (after_decode (Dyn (TPtr T) (VPtr (Some b))) err)).
Proof.
  intros Hb Hl Hd. destruct err as [e|]; [by apply thread_ok_no_holding|].
  intros v ph [= <- <-]. exists b, (Object T x). repeat split; try done.
  by exists input, x.
Qed.

Lemma private_after_decode (v : iface) (err : option error) (b b' : addr) (t : rtype) :
  v = Dyn (TPtr t) (VPtr (Some b)) ->
  private (TSet (after_decode v err)) = Some b' -> b' = b.
Proof. intros ->. destruct err; cbn; congruence. Qed.

Lemma step_sound (P : list addr) (c : config) (l : label) (c' : config) :
  inv P c -> cstep c l c' -> step_post P c l c'.
Proof.
  intros HI Hstep. pose proof (inv_type P c HI) as HT.
  destruct Hstep as [c t Ht|c i t t' s' Hi Hs|c i input v t a o x err y Hi Htg Hd
                     |c i v x err t a o y Hi Htg].
  - (* a new caller *)
    split; [by apply inv_spawn|]. split; [done|]. split; [done|].
    split; intros; discriminate.
  - (* a caller moves *)
    pose proof (inv_threads P c HI i t Hi) as Hok.
    destruct t as [pc|v x err|pc]; [destruct pc as [input|input v|v|v|old v|r]| |destruct pc as [|v]].
    + (* reflect.New *)
      rewrite step_SetNew in Hs. injection Hs as <- <-.
      apply step_post_tau; [by apply inv_alloc| |done].
      intros a o _ Hl. by apply lookup_app_l_Some.
    + (* json.Unmarshal *)
      destruct (private_holding _ _ _ _ _ Hok eq_refl)
        as (b & o & -> & Hp & HbP & Hl & ->).
      destruct (json_decode input T (zero T)) as [x err] eqn:Hd.
      rewrite (step_SetUnmarshal input _ _ T b _ x err (target_pointer _ _ _ _ Hl) Hd) in Hs.
      injection Hs as <- <-.
      destruct (inv_write P c i _ (TSet (after_decode (Dyn (TPtr T) (VPtr (Some b))) err))
                  b (Object T (zero T)) x HI Hi Hp) as [HI' Hfr].
      * apply (thread_ok_after_decode _ _ _ x _ input); [done| |done].
        apply list_lookup_insert_eq. by apply lookup_lt_Some in Hl.
      * intros b'. by apply (private_after_decode _ err b b' T).
      * by apply step_post_tau.
    + (* the validator *)
      destruct (step_SetValidate v (shared c)) as (r & s1 & E & Hq).
      rewrite E in Hs. injection Hs as <- <-.
      apply step_post_tau; [|intros ? ? _ ?; cbn [shared]; by rewrite (proj1 Hq)|apply Hq].
      apply (inv_quiet P c i _ _ _ HI Hi Hq).
      * rewrite (proj1 Hq). destruct r; [by apply thread_ok_no_holding|].
        intros v' ph [= <- <-]. by apply Hok.
      * intros b. destruct r; [discriminate|done].
    + (* atomic.SwapPointer *)
      destruct (private_holding _ _ _ _ _ Hok eq_refl)
        as (b & o & -> & Hp & HbP & Hl & Hw).
      rewrite step_SetSwap in Hs. injection Hs as <- <-.
      destruct (inv_swap P c i b T HI Hi) as (HI' & _ & _).
      cbn [label_of set_dyn with_ptr dyn ptr].
      split; [done|]. split; [done|]. split; [done|].
      split; [intros; discriminate|].
      intros j old new [= <- <- <-]. split; [done|]. by exists b, o.
    + (* go notifier *)
      destruct (step_SetNotify old v (shared c)) as (s1 & E & Hq).
      rewrite E in Hs. injection Hs as <- <-.
      apply step_post_tau; [|intros ? ? _ ?; cbn [shared]; by rewrite (proj1 Hq)|apply Hq].
      apply (inv_quiet P c i _ _ _ HI Hi Hq); [by apply thread_ok_no_holding|discriminate].
    + (* returned *)
      injection Hs as <- <-.
      apply step_post_tau; [|done|done].
      apply (inv_quiet P c i _ _ _ HI Hi); [done|by apply thread_ok_no_holding|discriminate].
    + (* the decoder's last write *)
      destruct (private_holding _ _ _ _ _ Hok eq_refl)
        as (b & o & -> & Hp & HbP & Hl & Ho & input & Hd).
      rewrite (step_TDecoding _ x err _ T b o (target_pointer _ _ _ _ Hl)) in Hs.
      injection Hs as <- <-.
      destruct (inv_write P c i _ (TSet (after_decode (Dyn (TPtr T) (VPtr (Some b))) err))
                  b o x HI Hi Hp) as [HI' Hfr].
      * apply (thread_ok_after_decode _ _ _ x _ input); [done| |done].
        rewrite Ho. apply list_lookup_insert_eq. by apply lookup_lt_Some in Hl.
      * intros b'. by apply (private_after_decode _ err b b' T).
      * by apply step_post_tau.
    + (* atomic.LoadPointer *)
      rewrite step_GetLoad in Hs. injection Hs as <- <-. cbn [label_of].
      assert (HI' : inv P (Config (shared c)
                (<[i := TGet (GetDone (Dyn (TPtr (structType (dyn (shared c))))
                                           (VPtr (ptr (dyn (shared c))))))]> (threads c)))).
      { apply (inv_quiet P c i _ _ _ HI Hi); [done|by apply thread_ok_no_holding|discriminate]. }
      split; [done|]. split; [done|]. split; [done|]. split; [|intros; discriminate].
      intros j p [= <- <-]. split; [done|]. cbn [threads]. rewrite HT.
      apply list_lookup_insert_eq. by apply lookup_lt_Some in Hi.
    + (* returned *)
      injection Hs as <- <-.
      apply step_post_tau; [|done|done].
      apply (inv_quiet P c i _ _ _ HI Hi); [done|by apply thread_ok_no_holding|discriminate].
  - (* the decoder's first write *)
    pose proof (inv_threads P c HI i _ Hi) as Hok.
    destruct (private_holding _ _ _ _ _ Hok eq_refl)
      as (b & o' & -> & Hp & HbP & Hl & ->).
    apply target_inv in Htg as [[= <- <-] Hl']. rewrite Hl in Hl'. injection Hl' as <-.
    cbn [ovalue] in Hd.
    destruct (inv_write P c i _ (TDecoding (Dyn (TPtr T) (VPtr (Some b))) x err)
                b (Object T (zero T)) y HI Hi Hp) as [HI' Hfr].
    + intros v ph [= <- <-]. exists b, (Object T y). repeat split; try done.
      * apply list_lookup_insert_eq. by apply lookup_lt_Some in Hl.
      * by exists input.
    + intros b' [= <-]. done.
    + by apply step_post_tau.
  - (* the decoder's next write *)
    pose proof (inv_threads P c HI i _ Hi) as Hok.
    destruct (private_holding _ _ _ _ _ Hok eq_refl)
      as (b & o' & -> & Hp & HbP & Hl & Ho & input & Hd).
    apply target_inv in Htg as [[= <- <-] Hl']. rewrite Hl in Hl'. injection Hl' as <-.
    destruct (inv_write P c i _ (TDecoding (Dyn (TPtr T) (VPtr (Some b))) x err)
                b o' y HI Hi Hp) as [HI' Hfr].
    + intros v ph [= <- <-]. exists b, (Object T y). repeat split; try done.
      * rewrite Ho. apply list_lookup_insert_eq. by apply lookup_lt_Some in Hl.
      * by exists input.
    + intros b' [= <-]. done.
    + rewrite list_insert_id in HI' by done. by apply step_post_tau.
Qed.


Lemma publish_incl (l : label) (P : list addr) (a : addr) : a ∈ P -> a ∈ publish l P.
Proof.
  intros Ha. destruct l as [| | i old [b|]|]; try done. cbn. apply elem_of_cons. by right.
Qed.

Lemma swapped_cons (p : option addr) (l : label) (ls : list label) :
  swapped p (l :: ls) = swapped (swapped p [l]) ls.
Proof. reflexivity. Qed.

Lemma swapped_app (p : option addr) (ls ls' : list label) :
  swapped p (ls ++ ls') = swapped (swapped p ls) ls'.
Proof. apply fold_left_app. Qed.

Lemma exec_sound (P : list addr) (c : config) (ls : list label) (c' : config) :
  inv P c -> exec c ls c' ->
  exists P',
    inv P' c'
    /\ (forall a, a ∈ P -> a ∈ P')
    /\ (forall a o, a ∈ P -> mem (shared c) !! a = Some o -> mem (shared c') !! a = Some o)
    /\ ptr (dyn (shared c')) = swapped (ptr (dyn (shared c))) ls.
Proof.
  intros HI Hex. revert P HI.
  induction Hex as [c|c l c1 ls c2 Hstep Hex IH]; intros P HI.
  - exists P. done.
  - destruct (step_sound P c l c1 HI Hstep) as (HI1 & Hfr1 & Hp1 & _).
    destruct (IH _ HI1) as (P' & HI2 & Hin & Hfr2 & Hp2).
    exists P'. split; [done|]. split; [|split].
    + intros a Ha. by apply Hin, publish_incl.
    + intros a o Ha Hl. apply Hfr2; [by apply publish_incl|]. by apply Hfr1.
    + by rewrite Hp2, Hp1.
Qed.


End SharingProofs.

Lemma swapped_no_swap (p : option addr) (ls : list label) :
  Forall (fun l => is_swap l = false) ls -> swapped p ls = p.
Proof.
  induction 1 as [|l ls Hl _ IH]; [reflexivity|].
  rewrite swapped_cons. destruct l; try discriminate; apply IH.
Qed.

Lemma swapped_after (p : option addr) (ls0 : list label) (j : nat)
    (old new : option addr) (ls' : list label) :
  Forall (fun l => is_swap l = false) ls' ->
  swapped p (ls0 ++ LSwap j old new :: ls') = new.
Proof. intros Hn. rewrite swapped_app, swapped_cons. by apply swapped_no_swap. Qed.

(** C4.  Linearizable publication.  Callers of [Get] and [Set] run
    concurrently, each cut at its accesses to shared memory, with the
    decoder filling its target in any number of writes; [atomic.LoadPointer]
    and [atomic.SwapPointer] are single steps, as [sync/atomic] makes
    them.  Take any execution from a container that holds the seed, and
    any step [l] of it, after the history [ls1] and before the history
    [ls2].  At every moment the cell holds what the last swap of the
    history put there, and every caller can take its next step.  If [l]
    is the swap of a [Set], it replaces the pointer in that one step by
    the pointer to an instance that was not published before, that holds
    exactly what the decoder made of one input, and that holds the same
    ever after.  If [l] is the load of a [Get], the [Get] returns the
    pointer the last swap before it put there -- the new pointer of a
    swap when no other swap came between -- and the instance behind it is
    whole, the seed or what the decoder made of one input, at the load
    and ever after. *)
Theorem Get_linearizable
    (s0 : state) (a0 : addr) (seed : object)
    (ls1 : list label) (c1 : config) (l : label) (c2 : config)
    (ls2 : list label) (c3 : config) :
  ptr (dyn s0) = Some a0 ->
  mem s0 !! a0 = Some seed ->
  exec (Config s0 []) ls1 c1 ->
  cstep c1 l c2 ->
  exec c2 ls2 c3 ->
  ptr (dyn (shared c1)) = swapped (Some a0) ls1
  /\ ptr (dyn (shared c2)) = swapped (Some a0) (ls1 ++ [l])
  /\ (forall i t, threads c1 !! i = Some t ->
        exists t' s', thread_step t (shared c1) = Ok (t', s'))
  /\ (forall i old new, l = LSwap i old new ->
        old = swapped (Some a0) ls1
        /\ new <> old
        /\ exists b o,
             new = Some b
             /\ decoded_whole (structType (dyn s0)) o
             /\ mem (shared c1) !! b = Some o
             /\ mem (shared c3) !! b = Some o)
  /\ (forall i p, l = LLoad i p ->
        p = swapped (Some a0) ls1
        /\ (forall ls0 j old new ls',
              ls1 = ls0 ++ LSwap j old new :: ls' ->
              Forall (fun l' => is_swap l' = false) ls' ->
              p = new)
        /\ threads c2 !! i
           = Some (TGet (GetDone (Dyn (TPtr (structType (dyn s0))) (VPtr p))))
        /\ exists a o,
             p = Some a
             /\ whole (structType (dyn s0)) seed o
             /\ mem (shared c1) !! a = Some o
             /\ mem (shared c3) !! a = Some o).
Proof.
  intros Hp0 Hseed Hex1 Hstep Hex2.
  set (T := structType (dyn s0)).
  assert (HI0 : inv T seed [a0] (Config s0 [])).
  { constructor; cbn [shared threads].
    - reflexivity.
    - exists a0. split; [done|]. apply elem_of_cons. by left.
    - intros a ->%list_elem_of_singleton. exists seed. split; [done|]. by left.
    - intros i t [=].
    - intros i j ti tj b [=]. }
  destruct (exec_sound T seed _ _ _ _ HI0 Hex1) as (P1 & HI1 & _ & _ & Hp1).
  cbn [shared] in Hp1. rewrite Hp0 in Hp1.
  destruct (step_sound T seed P1 c1 l c2 HI1 Hstep) as (HI2 & Hfr & Hp2 & Hload & Hswap).
  destruct (exec_sound T seed _ _ _ _ HI2 Hex2) as (P3 & HI3 & _ & Hfr3 & _).
  split; [done|]. split; [by rewrite swapped_app, <- Hp1|]. split; [|split].
  - intros i t Hi.
    apply (thread_step_returns T (mem (shared c1)) P1), (inv_threads T seed P1 c1 HI1 i t Hi).
  - intros i old new ->.
    destruct (Hswap i old new eq_refl) as (-> & b & o & -> & HbP & Hl & Hl2 & Hw).
    split; [done|]. split.
    + destruct (inv_ptr T seed P1 c1 HI1) as (a & Ha & HaP). rewrite Ha.
      intros [= ->]. done.
    + exists b, o. repeat split; try done.
      apply Hfr3; [apply elem_of_cons; by left|done].
  - intros i p ->. destruct (Hload i p eq_refl) as (-> & Hth).
    split; [done|]. split; [|split; [done|]].
    { intros ls0 j old new ls' -> Hn. rewrite Hp1. by apply swapped_after. }
    destruct (inv_ptr T seed P1 c1 HI1) as (a & Ha & HaP).
    destruct (inv_pub T seed P1 c1 HI1 a HaP) as (o & Hl & Hw).
    exists a, o. repeat split; try done.
    apply Hfr3; [done|]. by apply Hfr.
Qed.

(** ** More about one caller *)

Lemma Set_well_typed (input : string) (s : state) :
  well_typed s ->
  exists r s', Set_ input s = Ok (r, s') /\ well_typed s'.
Proof.
  intros (a & o & Hp & Hl & Ho).
  destruct (Set_cases input s) as [(x & e & _ & ->)|[(x & e & _ & _ & ->)|(x & _ & _ & ->)]];
    eexists _, _; (split; [reflexivity|]).
  - exists a, o. cbn. split; [done|]. split; [by apply lookup_app_l_Some|done].
  - exists a, o. cbn. split; [done|]. split; [by apply lookup_app_l_Some|done].
  - eexists (length (mem s)), _. cbn. split; [done|]. split; [apply snoc_lookup_last|done].
Qed.

Lemma run_op_well_typed (o : op) (s : state) :
  well_typed s -> exists s', run_op o s = Ok (tt, s') /\ well_typed s'.
Proof.
  intros Hw. destruct o as [|input|f|f| | |]; cbn [run_op].
  - by exists s.
  - destruct (Set_well_typed input s Hw) as (r & s' & E & Hw').
    exists s'. unfold mbind, M_bind. by rewrite E.
  - eexists. split; [reflexivity|]. exact Hw.
  - eexists. split; [reflexivity|]. exact Hw.
  - by exists s.
  - exists s. split; [|done]. unfold PrettyString, mbind, M_bind.
    rewrite Get_eq. unfold gets. by destruct (json_MarshalIndent _ _ _ _) as [out [e|]].
  - exists s. split; [|done]. unfold String_, mbind, M_bind.
    rewrite Get_eq. unfold gets. by destruct (json_Marshal _ _) as [out [e|]].
Qed.

Lemma run_ops_well_typed (os : list op) (s : state) :
  well_typed s -> exists s', run_ops os s = Ok (tt, s') /\ well_typed s'.
Proof.
  revert s. induction os as [|o os IH]; intros s Hw.
  - by exists s.
  - destruct (run_op_well_typed o s Hw) as (s1 & E1 & Hw1).
    destruct (IH s1 Hw1) as (s2 & E2 & Hw2).
    exists s2. cbn [run_ops]. unfold mbind, M_bind. by rewrite E1.
Qed.

(** X1.  The retyping in [unsafeToStoredType] is sound.  A container that
    [DynJSON] returns for a pointer to an object of the pointer's element
    type refers to an allocated object of its stored type; and from any
    state where it does, after any sequence of operations [Get] returns a
    non-nil pointer, of type pointer to the stored type, to an allocated
    object of exactly that type. *)
Theorem unsafe_cast_sound :
  (forall (flagSet : FlagSet) (name : string) (value : iface) (usage : string)
          (d : DynJSONValue) (fs : FlagSet) (h : heap) (tr : list event)
          (t : rtype) (a : addr) (o : object),
      DynJSON flagSet name value usage = Ok (d, fs) ->
      value = Dyn (TPtr t) (VPtr (Some a)) ->
      h !! a = Some o ->
      otype o = t ->
      well_typed (State h d tr))
  /\ (forall (os : list op) (s : state),
        well_typed s ->
        exists s' a o,
          run_ops os s = Ok (tt, s')
          /\ Get s' = Ok (Dyn (TPtr (structType (dyn s))) (VPtr (Some a)), s')
          /\ mem s' !! a = Some o
          /\ otype o = structType (dyn s)).
Proof.
  split.
  - intros flagSet name value usage d fs h tr t a o E -> Hl Ho.
    destruct t as [| | | | | |fields];
      try (rewrite DynJSON_refuses in E by reflexivity; discriminate).
    rewrite DynJSON_registers in E. apply register_returns in E. subst d.
    exists a, o. done.
  - intros os s Hw.
    destruct (run_ops_well_typed os s Hw) as (s' & E & (a & o & Hp & Hl & Ho)).
    destruct (run_ops_frame os s) as (s2 & h & E2 & HT & _).
    rewrite E in E2. injection E2 as <-.
    exists s', a, o. split; [done|]. rewrite Get_eq, HT, Hp.
    split; [done|]. split; [done|]. by rewrite <- HT.
Qed.


(** X2.  When [Set] publishes.  [Set] always returns, having allocated
    exactly one object.  It returns nil exactly when the input decoded
    without error and the validator, if there is one, accepted the decoded
    instance; a decoding error is returned as it is, before any validation,
    and otherwise the validator's answer is.  The pointer is replaced
    exactly when [Set] returns nil, by the address of the object just
    allocated; when [Set] returns an error the container is as it was. *)
Theorem Set_publishes_iff (input : string) (s : state) :
  exists r s',
    Set_ input s = Ok (r, s')
    /\ (r = None <->
        snd (decoded input s) = None /\ verdict (fst (decoded input s)) s = None)
    /\ (forall e, snd (decoded input s) = Some e -> r = Some e)
    /\ (snd (decoded input s) = None -> r = verdict (fst (decoded input s)) s)
    /\ length (mem s') = S (length (mem s))
    /\ (r = None -> ptr (dyn s') = Some (length (mem s)))
    /\ (r <> None -> dyn s' = dyn s)
    /\ (forall a, ptr (dyn s) = Some a -> a < length (mem s) ->
          (ptr (dyn s') <> ptr (dyn s) <-> r = None)).
Proof.
  destruct (Set_cases input s) as [(x & e & Hd & ->)|[(x & e & Hd & Hv & ->)|(x & Hd & Hv & ->)]];
    eexists _, _; (split; [reflexivity|]); rewrite Hd; cbn [fst snd].
  - split; [split; [discriminate|by intros []]|].
    split; [by intros ? [= ->]|]. split; [discriminate|].
    split; [cbn; rewrite length_app; cbn; lia|].
    split; [discriminate|]. split; [done|].
    intros a Ha Hlt. cbn. split; [done|discriminate].
  - rewrite Hv. split; [split; [discriminate|by intros []]|].
    split; [discriminate|]. split; [done|].
    split; [cbn; rewrite length_app; cbn; lia|].
    split; [discriminate|]. split; [done|].
    intros a Ha Hlt. cbn. split; [done|discriminate].
  - rewrite Hv. split; [done|].
    split; [discriminate|]. split; [done|].
    split; [cbn; rewrite length_app; cbn; lia|].
    split; [done|]. split; [done|].
    intros a Ha Hlt. cbn. rewrite Ha. split; [done|]. intros _ [= E]. lia.
Qed.

(** X3.  [WithValidator] replaces.  Whatever validator was attached
    before, after [WithValidator f] a [Set] consults [f] and nothing else:
    with [f] nil it makes no validator call and returns what the decoder
    returned; with a function [f] it returns a decoding error without
    calling [f], and otherwise calls [f] once on the candidate and returns
    its answer. *)
Theorem WithValidator_replaces
    (f : option (iface -> heap -> option error)) (input : string) (s : state) :
  exists r s' evs,
    (WithValidator f;; Set_ input) s = Ok (r, s')
    /\ trace s' = trace s ++ evs
    /\ match snd (decoded input s), f with
       | Some e, _ => r = Some e /\ validated evs = []
       | None, None => r = None /\ validated evs = []
       | None, Some g =>
           r = g (candidate s) (mem (staged (fst (decoded input s)) s))
           /\ validated evs = [(candidate s, r)]
       end.
Proof.
  set (s1 := set_dyn {| structType := structType (dyn s); ptr := ptr (dyn s);
                        validator := f; notifier := notifier (dyn s) |} s).
  assert (E : (WithValidator f;; Set_ input) s = Set_ input s1) by reflexivity.
  rewrite E.
  assert (Hdec : decoded input s1 = decoded input s) by reflexivity.
  destruct (Set_cases input s1) as [(x & e & Hd & ->)|[(x & e & Hd & Hv & ->)|(x & Hd & Hv & ->)]];
    rewrite <- Hdec, Hd; cbn [fst snd].
  - eexists _, _, []. split; [reflexivity|]. split; [cbn; by rewrite app_nil_r|done].
  - eexists _, _, [_]. split; [reflexivity|]. split; [reflexivity|].
    unfold verdict in Hv. cbn in Hv. destruct f as [g|]; [|discriminate].
    split; [symmetry; exact Hv|reflexivity].
  - eexists _, _, _. split; [reflexivity|]. split; [reflexivity|].
    unfold validated. rewrite omap_app. fold (validated (notification_events s1)).
    rewrite validated_notification, app_nil_r.
    unfold verdict in Hv. unfold validation_events. cbn in Hv. cbn [validator dyn s1 set_dyn].
    destruct f as [g|]; [|done].
    split; [symmetry; exact Hv|].
    change (mem (staged x s1)) with (mem s ++ [Object (structType (dyn s)) x]).
    by rewrite Hv.
Qed.

(** X4.  [WithNotifier] replaces.  Whatever notifier was attached before,
    after [WithNotifier f] a [Set] that returns nil starts one goroutine on
    [f], with the values [Get] returns before and after, when [f] is a
    function, and none when [f] is nil; a [Set] that returns an error
    starts none. *)
Theorem WithNotifier_replaces
    (f : option NotifierFunc) (input : string) (s : state) :
  exists r s' evs oldValue newValue,
    (WithNotifier f;; Set_ input) s = Ok (r, s')
    /\ trace s' = trace s ++ evs
    /\ Get s = Ok (oldValue, s)
    /\ Get s' = Ok (newValue, s')
    /\ started evs = match f, r with
                     | Some g, None => [(g, oldValue, newValue)]
                     | _, _ => []
                     end.
Proof.
  set (s1 := set_dyn {| structType := structType (dyn s); ptr := ptr (dyn s);
                        validator := validator (dyn s); notifier := f |} s).
  assert (E : (WithNotifier f;; Set_ input) s = Set_ input s1) by reflexivity.
  rewrite E.
  destruct (Set_cases input s1) as [(x & e & Hd & ->)|[(x & e & Hd & Hv & ->)|(x & Hd & Hv & ->)]].
  - eexists _, _, [], _, _. split; [reflexivity|]. split; [cbn; by rewrite app_nil_r|].
    split; [reflexivity|]. split; [reflexivity|]. by destruct f.
  - eexists _, _, [_], _, _. split; [reflexivity|]. split; [reflexivity|].
    split; [reflexivity|]. split; [reflexivity|]. by destruct f.
  - eexists _, _, _, _, _. split; [reflexivity|]. split; [reflexivity|].
    split; [reflexivity|]. split; [reflexivity|].
    unfold started. rewrite omap_app. fold (started (validation_events x s1)).
    rewrite started_validation. unfold notification_events. cbn.
    by destruct f.
Qed.


(** What one [Set] does to the current value and to the goroutines. *)
Lemma Set_effect (input : string) (s : state) :
  exists r s' evs,
    Set_ input s = Ok (r, s')
    /\ trace s' = trace s ++ evs
    /\ structType (dyn s') = structType (dyn s)
    /\ notifier (dyn s') = notifier (dyn s)
    /\ started evs = match r, notifier (dyn s) with
                     | None, Some g =>
                         [(g, Dyn (TPtr (structType (dyn s))) (VPtr (ptr (dyn s))),
                           Dyn (TPtr (structType (dyn s))) (VPtr (ptr (dyn s'))))]
                     | _, _ => []
                     end
    /\ match r with
       | None => current s' = Some (Object (structType (dyn s)) (fst (decoded input s)))
       | Some _ => ptr (dyn s') = ptr (dyn s)
                   /\ forall o, current s = Some o -> current s' = Some o
       end.
Proof.
  destruct (Set_cases input s) as [(x & e & Hd & ->)|[(x & e & Hd & Hv & ->)|(x & Hd & Hv & ->)]].
  - eexists _, _, []. split; [reflexivity|]. cbn. rewrite app_nil_r.
    repeat split; try done. unfold current. cbn. intros o.
    destruct (ptr (dyn s)); [|done]. by apply lookup_app_l_Some.
  - eexists _, _, [_]. split; [reflexivity|]. cbn.
    repeat split; try done. unfold current. cbn. intros o.
    destruct (ptr (dyn s)); [|done]. by apply lookup_app_l_Some.
  - eexists _, _, _. split; [reflexivity|]. split; [reflexivity|].
    cbn [published dyn with_ptr structType notifier ptr mem].
    split; [done|]. split; [done|]. split.
    { unfold started. rewrite omap_app. fold (started (validation_events x s)).
      rewrite started_validation. unfold notification_events, candidate.
      by destruct (notifier (dyn s)). }
    unfold current. cbn. rewrite Hd. apply snoc_lookup_last.
Qed.

Lemma linked_app (v : iface) (l1 l2 : list (NotifierFunc * iface * iface)) (v1 v2 : iface) :
  linked v l1 v1 -> linked v1 l2 v2 -> linked v (l1 ++ l2) v2.
Proof.
  revert v. induction l1 as [|[[f o] n] l1 IH]; intros v; cbn.
  - by intros ->.
  - intros [-> Hl] H2. split; [done|]. by apply IH.
Qed.

(** X5.  Notifications hand on.  With a notifier attached, [Set] called
    on a list of inputs one after the other starts one goroutine for each
    call that returns nil, all on that notifier; the first [oldValue] is
    what [Get] returned before the batch, each later [oldValue] is the
    [newValue] before it, and the last [newValue] is what [Get] returns
    after the batch. *)
Theorem Sets_notifications_linked (inputs : list string) (s : state) (g : NotifierFunc) :
  notifier (dyn s) = Some g ->
  exists rs s' evs v v',
    Sets inputs s = Ok (rs, s')
    /\ length rs = length inputs
    /\ trace s' = trace s ++ evs
    /\ Get s = Ok (v, s)
    /\ Get s' = Ok (v', s')
    /\ linked v (started evs) v'
    /\ Forall (fun n => n.1.1 = g) (started evs)
    /\ length (started evs) = successes rs.
Proof.
  revert s. induction inputs as [|input inputs IH]; intros s Hg.
  - eexists [], s, [], _, _. rewrite app_nil_r. repeat split; constructor.
  - destruct (Set_effect input s) as (r & s1 & evs1 & E1 & Htr1 & HT1 & Hn1 & Hst1 & Hcur1).
    rewrite Hg in Hst1.
    destruct (IH s1) as (rs & s2 & evs2 & v1 & v2 & E2 & Hlen & Htr2 & HG1 & HG2 & Hlk & Hall & Hcnt);
      [by rewrite Hn1|].
    rewrite Get_eq in HG1. injection HG1 as <-.
    eexists (r :: rs), s2, (evs1 ++ evs2), _, v2.
    split; [cbn [Sets]; unfold mbind, M_bind; by rewrite E1, E2|].
    split; [cbn; by rewrite Hlen|].
    split; [by rewrite Htr2, Htr1, app_assoc|].
    split; [reflexivity|]. split; [done|].
    unfold started in *. rewrite omap_app.
    destruct r as [e|].
    + destruct Hcur1 as [Hp _]. rewrite Hst1. cbn [app successes].
      rewrite HT1, Hp in Hlk. done.
    + rewrite Hst1. cbn [app successes length linked].
      rewrite HT1 in Hlk. repeat split; try done; [by constructor|by rewrite Hcnt].
Qed.

Lemma current_Get (s : state) (v : iface) :
  Get s = Ok (v, s) -> deref (mem s) v = current s.
Proof. rewrite Get_eq. intros [= <-]. unfold current. cbn. by destruct (ptr (dyn s)). Qed.

(** X6.  The last successful writer wins.  After [Set] was called on a
    list of inputs one after the other, [Get] points to an instance that
    holds what the decoder made of the last input whose [Set] returned
    nil; when none did, it points to the instance that was current
    before. *)
Theorem Sets_last_writer_wins (inputs : list string) (s : state) (v : iface) (o : object) :
  Get s = Ok (v, s) ->
  deref (mem s) v = Some o ->
  exists rs s' v',
    Sets inputs s = Ok (rs, s')
    /\ length rs = length inputs
    /\ Get s' = Ok (v', s')
    /\ deref (mem s') v'
       = Some (last_published (structType (dyn s)) inputs rs o).
Proof.
  intros HG Hd. rewrite (current_Get s v HG) in Hd. clear v HG.
  revert s o Hd. induction inputs as [|input inputs IH]; intros s o Hd.
  - exists [], s, (Dyn (TPtr (structType (dyn s))) (VPtr (ptr (dyn s)))).
    split; [reflexivity|]. split; [reflexivity|].
    split; [reflexivity|]. by rewrite (current_Get s _ (Get_eq s)).
  - destruct (Set_effect input s) as (r & s1 & evs1 & E1 & _ & HT1 & _ & _ & Hcur1).
    set (o1 := match r with
               | None => Object (structType (dyn s)) (fst (decoded input s))
               | Some _ => o
               end).
    assert (Hd1 : current s1 = Some o1).
    { unfold o1. destruct r as [e|]; [by apply Hcur1|done]. }
    destruct (IH s1 o1 Hd1) as (rs & s2 & v2 & E2 & Hlen & HG2 & Hd2).
    exists (r :: rs), s2, v2.
    split; [cbn [Sets]; unfold mbind, M_bind; by rewrite E1, E2|].
    split; [cbn; by rewrite Hlen|]. split; [done|].
    rewrite Hd2, HT1. reflexivity.
Qed.

Lemma String_eq (s : state) :
  String_ s
  = Ok (match json_Marshal (mem s)
                (Dyn (TPtr (structType (dyn s))) (VPtr (ptr (dyn s)))) with
        | (_, Some _) => "ERR"
        | (out, None) => out
        end, s).
Proof.
  unfold String_, mbind, M_bind. rewrite Get_eq. unfold gets.
  by destruct (json_Marshal _ _) as [out [e|]].
Qed.

(** X7.  [String] then [Set].  When the encoder renders the current
    instance without error, the decoder reads those bytes back as the same
    contents, and the validator, if there is one, accepts them, then
    feeding the result of [String] to [Set] returns nil and publishes a
    new instance, at another address, with the contents of the old one,
    which stays as it was. *)
Theorem Set_String_round_trip (s : state) (v : iface) (x : gval) (out : string) :
  Get s = Ok (v, s) ->
  deref (mem s) v = Some (Object (structType (dyn s)) x) ->
  json_Marshal (mem s) v = (out, None) ->
  json_decode out (structType (dyn s)) (zero (structType (dyn s))) = (x, None) ->
  verdict x s = None ->
  exists s' v',
    (out' ← String_; Set_ out') s = Ok (None, s')
    /\ Get s' = Ok (v', s')
    /\ v' <> v
    /\ deref (mem s') v' = Some (Object (structType (dyn s)) x)
    /\ deref (mem s') v = Some (Object (structType (dyn s)) x).
Proof.
  intros HG Hd Hm Hdec Hv. rewrite Get_eq in HG. injection HG as <-.
  exists (published x s), (candidate s).
  split.
  { unfold mbind, M_bind. rewrite String_eq, Hm. by apply Set_published. }
  split; [reflexivity|]. split.
  { unfold candidate. intros [= E]. cbn in Hd. rewrite <- E in Hd.
    apply lookup_lt_Some in Hd. lia. }
  split; [cbn; apply snoc_lookup_last|]. by apply deref_snoc.
Qed.


(** ** More about concurrent callers *)

Lemma thread_step_credit (t t' : thread) (s s' : state) :
  thread_step t s = Ok (t', s') ->
  swapped_once t' = swapped_once t + match t with
                                     | TSet (SetSwap _) => 1
                                     | _ => 0
                                     end.
Proof.
  destruct t as [pc|v x err|pc]; [destruct pc as [input|input v|v|v|old v|r]| |destruct pc as [|v]].
  - rewrite step_SetNew. by intros [= <- <-].
  - cbn [thread_step set_step]. unfold mbind, M_bind, json_Unmarshal.
    destruct (target v s) as [[[t a] o]|]; [|by intros [= <- <-]].
    destruct (json_decode input t (ovalue o)) as [x [e|]]; by intros [= <- <-].
  - destruct (step_SetValidate v s) as (r & s1 & -> & _). intros [= <- <-]. by destruct r.
  - cbn [thread_step set_step]. unfold mbind, M_bind, lift.
    destruct (reflect.Value_Pointer _) as [p|]; [|discriminate]. by intros [= <- <-].
  - destruct (step_SetNotify old v s) as (s1 & -> & _). by intros [= <- <-].
  - intros [= <- <-]. cbn. lia.
  - cbn [thread_step]. unfold mbind, M_bind, store.
    destruct (target v s) as [[[t a] o]|]; intros [= <- <-]; by destruct err.
  - rewrite step_GetLoad. by intros [= <- <-].
  - by intros [= <- <-].
Qed.

Lemma swaps_by_label_of (i j : nat) (t : thread) (s s' : state) :
  swaps_by i [label_of j t s s']
  = match t with
    | TSet (SetSwap _) => if Nat.eqb j i then 1 else 0
    | _ => 0
    end.
Proof.
  destruct t as [pc|v x err|pc]; [destruct pc| |destruct pc]; cbn; try done;
    destruct (Nat.eqb j i); done.
Qed.

Lemma cstep_credit (c : config) (l : label) (c' : config) (i : nat) :
  cstep c l c' -> credit c' i = credit c i + swaps_by i [l].
Proof.
  intros Hstep. unfold credit.
  destruct Hstep as [c t Ht|c j t t' s' Hj Hs|c j input v t a o x err y Hj Htg Hd
                     |c j v x err t a o y Hj Htg]; cbn [threads].
  - cbn [swaps_by]. destruct (threads c !! i) as [ti|] eqn:Hi.
    + rewrite (lookup_app_l_Some _ _ _ _ Hi). lia.
    + destruct ((threads c ++ [t]) !! i) as [ti|] eqn:Hi'; [|done].
      apply lookup_app_Some in Hi' as [Hi'|[_ Hi']]; [congruence|].
      apply list_lookup_singleton_Some in Hi' as [_ <-].
      destruct Ht as [->|[input ->]]; done.
  - rewrite swaps_by_label_of. destruct (decide (j = i)) as [->|Hne].
    + rewrite list_lookup_insert_eq by (by apply lookup_lt_Some in Hj).
      rewrite Hj, (thread_step_credit _ _ _ _ Hs), Nat.eqb_refl.
      destruct t as [[]| |]; lia.
    + rewrite list_lookup_insert_ne by done.
      apply Nat.eqb_neq in Hne. rewrite Hne. destruct (threads c !! i), t as [[]| |]; lia.
  - cbn [swaps_by]. destruct (decide (j = i)) as [->|Hne].
    + rewrite list_lookup_insert_eq by (by apply lookup_lt_Some in Hj). by rewrite Hj.
    + rewrite list_lookup_insert_ne by done. lia.
  - cbn [swaps_by]. lia.
Qed.

Lemma swaps_by_cons (i : nat) (l : label) (ls : list label) :
  swaps_by i (l :: ls) = swaps_by i [l] + swaps_by i ls.
Proof. destruct l; cbn; lia. Qed.

Lemma exec_credit (c : config) (ls : list label) (c' : config) (i : nat) :
  exec c ls c' -> credit c' i = credit c i + swaps_by i ls.
Proof.
  induction 1 as [c|c l c1 ls c2 Hstep _ IH]; [cbn; lia|].
  rewrite (swaps_by_cons i l ls), IH, (cstep_credit _ _ _ i Hstep). lia.
Qed.

(** X8.  One swap for each successful [Set], under any interleaving.  In
    every execution of concurrent callers, a caller whose [Set] has
    returned nil, or has reached its [go] statement, has swapped the
    pointer exactly once; a caller whose [Set] has returned an error, a
    caller that has not reached the swap yet, a caller of [Get], and an
    index with no caller have never swapped it. *)
Theorem one_swap_per_successful_Set
    (s0 : state) (ls : list label) (c : config) (i : nat) :
  exec (Config s0 []) ls c ->
  match threads c !! i with
  | Some (TSet (SetDone None)) => swaps_by i ls = 1
  | Some (TSet (SetDone (Some _))) => swaps_by i ls = 0
  | Some (TSet (SetNotify _ _)) => swaps_by i ls = 1
  | Some _ => swaps_by i ls = 0
  | None => swaps_by i ls = 0
  end.
Proof.
  intros Hex. pose proof (exec_credit _ _ _ i Hex) as E.
  unfold credit in E. cbn [threads] in E. rewrite lookup_nil in E.
  destruct (threads c !! i) as [[[| | | | |[e|]]| |]|]; cbn in E; lia.
Qed.


Lemma pending_insert (ts : list thread) (i : nat) (t t' : thread) :
  ts !! i = Some t ->
  pending (<[i := t']> ts) + notifying t = pending ts + notifying t'.
Proof.
  unfold pending. revert i. induction ts as [|t0 ts IH]; intros [|i]; try done; csimpl.
  - intros [= ->]. lia.
  - intros Hi. specialize (IH i Hi). lia.
Qed.

Lemma pending_snoc (ts : list thread) (t : thread) :
  pending (ts ++ [t]) = pending ts + notifying t.
Proof. unfold pending. rewrite sum_list_with_app. cbn. lia. Qed.

Lemma swaps_label_of (i : nat) (t : thread) (s s' : state) :
  swaps [label_of i t s s']
  = match t with
    | TSet (SetSwap _) => [(ptr (dyn s), ptr (dyn s'))]
    | _ => []
    end.
Proof. destruct t as [pc|v x err|pc]; [destruct pc| |destruct pc]; done. Qed.

Lemma started_snoc (tr : list event) (e : event) :
  started (tr ++ [e])
  = started tr ++ match e with
                  | EvGo f o n => [(f, o, n)]
                  | EvValidate _ _ => []
                  end.
Proof. unfold started. rewrite omap_app. by destruct e. Qed.

Section NotifyProofs.

Variable T : rtype.
Variable seed : object.
Variable g : option NotifierFunc.

(** What a step does to the trace and to the caller that takes it. *)
Lemma thread_step_notice (h : heap) (P : list addr) (t t' : thread) (s s' : state) :
  thread_ok T h P t ->
  structType (dyn s) = T ->
  thread_step t s = Ok (t', s') ->
  notifier (dyn s') = notifier (dyn s)
  /\ match t with
     | TSet (SetSwap v) =>
         exists b, v = Dyn (TPtr T) (VPtr (Some b))
                   /\ t' = TSet (SetNotify (ptr (dyn s)) v)
                   /\ trace s' = trace s
                   /\ ptr (dyn s') = Some b
     | TSet (SetNotify old v) =>
         t' = TSet (SetDone None)
         /\ trace s' = trace s ++ match notifier (dyn s) with
                                  | Some f => [EvGo f (Dyn (TPtr T) (VPtr old)) v]
                                  | None => []
                                  end
     | _ => started (trace s') = started (trace s) /\ notifying t' = 0
     end.
Proof.
  intros Hok HT.
  destruct t as [pc|v x err|pc]; [destruct pc as [input|input v|v|v|old v|r]| |destruct pc as [|v]].
  - rewrite step_SetNew. by intros [= <- <-].
  - cbn [thread_step set_step]. unfold mbind, M_bind, json_Unmarshal.
    destruct (target v s) as [[[t a] o]|]; [|by intros [= <- <-]].
    destruct (json_decode input t (ovalue o)) as [x [e|]]; by intros [= <- <-].
  - cbn [thread_step set_step]. unfold mbind, M_bind, gets.
    destruct (validator (dyn s)) as [f|]; [|by intros [= <- <-]].
    unfold call_validator. destruct (f v (mem s)) as [e|]; intros [= <- <-];
      (split; [done|]); cbn [trace log]; rewrite started_snoc, app_nil_r; done.
  - destruct (private_holding T _ _ _ _ _ Hok eq_refl) as (b & o & -> & _).
    rewrite step_SetSwap. intros [= <- <-]. split; [done|]. by exists b.
  - cbn [thread_step set_step]. unfold mbind, M_bind, gets.
    destruct (notifier (dyn s)) as [f|] eqn:Hnf.
    + cbv [unsafeToStoredType go modify Interface gets mbind M_bind mret M_ret
           reflect.Value_Interface reflect.NewAt].
      intros [= <- <-]. cbn [log dyn trace]. rewrite HT. done.
    + intros [= <- <-]. rewrite app_nil_r. done.
  - by intros [= <- <-].
  - cbn [thread_step]. unfold mbind, M_bind, store.
    destruct (target v s) as [[[t a] o]|]; intros [= <- <-]; by destruct err.
  - rewrite step_GetLoad. by intros [= <- <-].
  - by intros [= <- <-].
Qed.

Lemma notified_move (S S' : list (option addr * option addr)) (c : config)
    (i : nat) (t t' : thread) (s' : state) :
  notified T g S c ->
  threads c !! i = Some t ->
  notifier (dyn s') = g ->
  (forall x, x ∈ S -> x ∈ S') ->
  (forall f o n,
      (f, o, n) ∈ started (trace s') ->
      (f, o, n) ∈ started (trace (shared c))
      \/ (g = Some f
          /\ exists old new,
               (old, new) ∈ S' /\ o = Dyn (TPtr T) (VPtr old)
               /\ n = Dyn (TPtr T) (VPtr new))) ->
  (forall old v, t' = TSet (SetNotify old v) ->
                 exists new, (old, new) ∈ S' /\ v = Dyn (TPtr T) (VPtr new)) ->
  length (started (trace s')) + notifying t' + length S
  <= length (started (trace (shared c))) + notifying t + length S' ->
  notified T g S' (Config s' (<[i := t']> (threads c))).
Proof.
  intros HN Hi Hg Hsub Hst Hnew Hcnt.
  constructor; cbn [shared threads].
  - done.
  - intros f o n Hin. destruct (Hst f o n Hin) as [Hold|Hnew']; [|done].
    destruct (nf_started T g S c HN f o n Hold) as (Hf & old & new & HS & Ho & Hn).
    split; [done|]. exists old, new. auto.
  - intros j old v Hj.
    apply list_lookup_insert_Some in Hj as [(<- & -> & _)|(Hne & Hj)]; [by apply Hnew|].
    destruct (nf_pending T g S c HN j old v Hj) as (new & HS & Hv). exists new. auto.
  - pose proof (nf_count T g S c HN). pose proof (pending_insert _ _ _ t' Hi). lia.
Qed.

Lemma notified_same (S : list (option addr * option addr)) (c : config)
    (i : nat) (t t' : thread) (s' : state) :
  notified T g S c ->
  threads c !! i = Some t ->
  notifier (dyn s') = notifier (dyn (shared c)) ->
  started (trace s') = started (trace (shared c)) ->
  notifying t' = 0 ->
  notified T g S (Config s' (<[i := t']> (threads c))).
Proof.
  intros HN Hi Hg Hst Hn.
  apply (notified_move S S c i t t' s' HN Hi); try done.
  - rewrite Hg. apply HN.
  - intros f o n Hin. left. by rewrite <- Hst.
  - intros old v ->. discriminate.
  - rewrite Hst, Hn. lia.
Qed.

Lemma notified_step (P : list addr) (S : list (option addr * option addr))
    (c : config) (l : label) (c' : config) :
  inv T seed P c -> notified T g S c -> cstep c l c' ->
  notified T g (swaps [l] ++ S) c'.
Proof.
  intros HI HN Hstep.
  destruct Hstep as [c t Ht|c i t t' s' Hi Hs|c i input v t a o x err y Hi Htg Hd
                     |c i v x err t a o y Hi Htg].
  - cbn [swaps app].
    assert (Hn : notifying t = 0) by (destruct Ht as [->|[input ->]]; done).
    constructor; cbn [shared threads]; try apply HN.
    + intros j old v [Hj|[_ Hj]]%lookup_app_Some; [by apply (nf_pending T g S c HN j)|].
      apply list_lookup_singleton_Some in Hj as [_ ->]. discriminate Hn.
    + rewrite pending_snoc, Hn. pose proof (nf_count T g S c HN). lia.
  - destruct (thread_step_notice _ _ _ _ _ _ (inv_threads T seed P c HI i t Hi)
                (inv_type T seed P c HI) Hs) as [Hg Hcase].
    rewrite swaps_label_of.
    destruct t as [pc|v x err|pc]; [destruct pc as [input|input v|v|v|old v|r]| |destruct pc as [|v]];
      try (destruct Hcase as [Hst Hn]; by apply (notified_same S c i _ t' s' HN Hi)).
    + destruct Hcase as (b & -> & -> & Htr & Hp). rewrite Hp.
      apply (notified_move S _ c i _ _ s' HN Hi).
      * rewrite Hg. apply HN.
      * intros x Hx. apply elem_of_cons. by right.
      * intros f o n Hin. left. by rewrite <- Htr.
      * intros old v [= <- <-]. exists (Some b). split; [|done]. apply elem_of_cons. by left.
      * rewrite Htr. cbn. lia.
    + destruct Hcase as (-> & Htr).
      destruct (nf_pending T g S c HN i old v Hi) as (new & HS & ->).
      apply (notified_move S S c i _ _ s' HN Hi); try done.
      * rewrite Hg. apply HN.
      * intros f o n Hin. rewrite Htr in Hin.
        destruct (notifier (dyn (shared c))) as [f0|] eqn:Hf0.
        -- rewrite started_snoc in Hin. apply elem_of_app in Hin as [Hin|Hin]; [by left|].
           apply list_elem_of_singleton in Hin as [= -> -> ->]. right.
           split; [by rewrite <- (nf_notifier T g S c HN)|]. by exists old, new.
        -- rewrite app_nil_r in Hin. by left.
      * rewrite Htr. destruct (notifier (dyn (shared c))).
        -- rewrite started_snoc, length_app. cbn. lia.
        -- rewrite app_nil_r. cbn. lia.
  - cbn [swaps app]. apply (notified_same S c i _ _ _ HN Hi); done.
  - cbn [swaps app]. rewrite <- (list_insert_id (threads c) i _ Hi).
    apply (notified_same S c i _ _ _ HN Hi); done.
Qed.

Lemma swaps_cons (l : label) (ls : list label) : swaps (l :: ls) = swaps [l] ++ swaps ls.
Proof. by destruct l. Qed.

Lemma notified_exec (P : list addr) (S : list (option addr * option addr))
    (c : config) (ls : list label) (c' : config) :
  inv T seed P c -> notified T g S c -> exec c ls c' ->
  exists S',
    notified T g S' c'
    /\ (forall x, x ∈ S' -> x ∈ S \/ x ∈ swaps ls)
    /\ length S' = length S + length (swaps ls).
Proof.
  intros HI HN Hex. revert P S HI HN.
  induction Hex as [c|c l c1 ls c2 Hstep Hex IH]; intros P S HI HN.
  - exists S. split; [done|]. split; [by left|cbn; lia].
  - destruct (step_sound T seed P c l c1 HI Hstep) as (HI1 & _).
    destruct (IH _ _ HI1 (notified_step P S c l c1 HI HN Hstep)) as (S' & HN' & Hsub & Hlen).
    exists S'. split; [done|]. rewrite (swaps_cons l ls). split.
    + intros x Hx. destruct (Hsub x Hx) as [[Hl|HS]%elem_of_app|Hls].
      * right. apply elem_of_app. by left.
      * by left.
      * right. apply elem_of_app. by right.
    + rewrite Hlen, !length_app. lia.
Qed.

End NotifyProofs.

(** X9.  Notifications are swaps, under any interleaving.  In every
    execution of concurrent callers on a seeded container that has
    started no goroutine yet, there are never more goroutines than swaps,
    and every goroutine is on the attached notifier, with an [oldValue]
    and a [newValue] that are the old and the new pointer of one swap of
    the history, at the stored type. *)
Theorem notifications_match_swaps
    (s0 : state) (a0 : addr) (seed : object) (ls : list label) (c : config) :
  ptr (dyn s0) = Some a0 ->
  mem s0 !! a0 = Some seed ->
  started (trace s0) = [] ->
  exec (Config s0 []) ls c ->
  length (started (trace (shared c))) <= length (swaps ls)
  /\ forall f o n,
       (f, o, n) ∈ started (trace (shared c)) ->
       notifier (dyn s0) = Some f
       /\ exists old new,
            (old, new) ∈ swaps ls
            /\ o = Dyn (TPtr (structType (dyn s0))) (VPtr old)
            /\ n = Dyn (TPtr (structType (dyn s0))) (VPtr new).
Proof.
  intros Hp0 Hseed Htr0 Hex.
  set (T := structType (dyn s0)).
  assert (HI0 : inv T seed [a0] (Config s0 [])).
  { constructor; cbn [shared threads].
    - reflexivity.
    - exists a0. split; [done|]. apply elem_of_cons. by left.
    - intros a ->%list_elem_of_singleton. exists seed. split; [done|]. by left.
    - intros i t [=].
    - intros i j ti tj b [=]. }
  assert (HN0 : notified T (notifier (dyn s0)) [] (Config s0 [])).
  { constructor; cbn [shared threads].
    - reflexivity.
    - intros f o n. rewrite Htr0. by intros ?%elem_of_nil.
    - intros i old v [=].
    - rewrite Htr0. cbn. lia. }
  destruct (notified_exec T seed _ _ _ _ _ _ HI0 HN0 Hex) as (S' & HN & Hsub & Hlen).
  split.
  - pose proof (nf_count T _ S' c HN). cbn in Hlen. lia.
  - intros f o n Hin.
    destruct (nf_started T _ S' c HN f o n Hin) as (Hf & old & new & HS & Ho & Hn).
    split; [done|]. exists old, new. split; [|done].
    destruct (Hsub _ HS) as [?%elem_of_nil|?]; done.
Qed.

Section GateProofs.

Variable T : rtype.
Variable seed : object.

Lemma thread_step_gate (h : heap) (P : list addr) (t t' : thread) (s s' : state) :
  thread_ok T h P t ->
  is_Some (validator (dyn s)) ->
  thread_step t s = Ok (t', s') ->
  validator (dyn s') = validator (dyn s)
  /\ (exists evs, trace s' = trace s ++ evs)
  /\ (forall v, t' = TSet (SetSwap v) -> EvValidate v None ∈ trace s')
  /\ (forall v, t = TSet (SetSwap v) ->
        exists b, v = Dyn (TPtr T) (VPtr (Some b)) /\ ptr (dyn s') = Some b).
Proof.
  intros Hok [f Hf].
  destruct t as [pc|v x err|pc]; [destruct pc as [input|input v|v|v|old v|r]| |destruct pc as [|v]].
  - rewrite step_SetNew. intros [= <- <-]. split; [done|].
    split; [exists []; cbn; by rewrite app_nil_r|]. split; intros; discriminate.
  - cbn [thread_step set_step]. unfold mbind, M_bind, json_Unmarshal.
    destruct (target v s) as [[[t a] o]|].
    + destruct (json_decode input t (ovalue o)) as [x [e|]]; intros [= <- <-];
        (split; [done|]); (split; [exists []; cbn; by rewrite app_nil_r|]);
        split; intros; discriminate.
    + intros [= <- <-]. split; [done|].
      split; [exists []; by rewrite app_nil_r|]. split; intros; discriminate.
  - cbn [thread_step set_step]. unfold mbind, M_bind, gets. rewrite Hf.
    unfold call_validator. destruct (f v (mem s)) as [e|] eqn:Hv; intros [= <- <-];
      (split; [done|]); (split; [by eexists [_]|]); (split; [|intros; discriminate]).
    + intros; discriminate.
    + intros v' [= <-]. cbn. apply elem_of_app. right. by apply list_elem_of_singleton.
  - destruct (private_holding T _ _ _ _ _ Hok eq_refl) as (b & o & -> & _).
    rewrite step_SetSwap. intros [= <- <-]. split; [done|].
    split; [exists []; cbn; by rewrite app_nil_r|]. split; [intros; discriminate|].
    intros v [= <-]. by exists b.
  - destruct (step_SetNotify old v s) as (s1 & E & Hq). rewrite E. intros [= <- <-].
    split; [by rewrite (proj2 Hq)|]. split; [|split; intros; discriminate].
    revert E. cbn [thread_step set_step]. unfold mbind, M_bind, gets.
    destruct (notifier (dyn s)) as [g|]; intros [= <-].
    + by eexists [_].
    + exists []. by rewrite app_nil_r.
  - intros [= <- <-]. split; [done|].
    split; [exists []; by rewrite app_nil_r|]. split; intros; discriminate.
  - cbn [thread_step]. unfold mbind, M_bind, store.
    destruct (target v s) as [[[t a] o]|]; intros [= <- <-]; (split; [done|]);
      (split; [exists []; cbn; by rewrite app_nil_r|]);
      (split; [|intros; discriminate]); intros v'; by destruct err.
  - rewrite step_GetLoad. intros [= <- <-]. split; [done|].
    split; [exists []; by rewrite app_nil_r|]. split; intros; discriminate.
  - intros [= <- <-]. split; [done|].
    split; [exists []; by rewrite app_nil_r|]. split; intros; discriminate.
Qed.

Lemma gated_step (P : list addr) (S : list (option addr * option addr))
    (c : config) (l : label) (c' : config) :
  inv T seed P c -> gated T S c -> cstep c l c' ->
  gated T (swaps [l] ++ S) c'.
Proof.
  intros HI HG Hstep.
  destruct Hstep as [c t Ht|c i t t' s' Hi Hs|c i input v t a o x err y Hi Htg Hd
                     |c i v x err t a o y Hi Htg].
  - cbn [swaps app]. constructor; cbn [shared threads]; try apply HG.
    intros j v [Hj|[_ Hj]]%lookup_app_Some; [by apply (gt_swapping T S c HG j)|].
    apply list_lookup_singleton_Some in Hj as [_ ->].
    destruct Ht as [?|[? ?]]; discriminate.
  - destruct (thread_step_gate _ _ _ _ _ _ (inv_threads T seed P c HI i t Hi)
                (gt_validator T S c HG) Hs) as (Hv & [evs Htr] & Hnew & Hswap).
    rewrite swaps_label_of.
    constructor; cbn [shared threads].
    + rewrite Hv. apply HG.
    + intros j v Hj. apply list_lookup_insert_Some in Hj as [(<- & -> & _)|(Hne & Hj)].
      * by apply Hnew.
      * rewrite Htr. apply elem_of_app. left. by apply (gt_swapping T S c HG j).
    + intros old new Hin.
      assert (Hold : (old, new) ∈ S ->
                     EvValidate (Dyn (TPtr T) (VPtr new)) None ∈ trace s').
      { intros HS. rewrite Htr. apply elem_of_app. left. by apply (gt_swapped T S c HG old). }
      destruct t as [[| | |v| |]| |]; try (by apply Hold).
      apply elem_of_cons in Hin as [[= -> ->]|HS]; [|by apply Hold].
      destruct (Hswap v eq_refl) as (b & -> & ->).
      rewrite Htr. apply elem_of_app. left. by apply (gt_swapping T S c HG i).
  - cbn [swaps app]. constructor; cbn [shared threads poke set_mem dyn trace]; try apply HG.
    intros j v' Hj. apply list_lookup_insert_Some in Hj as [(_ & [=] & _)|(Hne & Hj)].
    by apply (gt_swapping T S c HG j).
  - cbn [swaps app]. constructor; cbn [shared threads poke set_mem dyn trace]; apply HG.
Qed.

Lemma gated_exec (P : list addr) (S : list (option addr * option addr))
    (c : config) (ls : list label) (c' : config) :
  inv T seed P c -> gated T S c -> exec c ls c' ->
  exists S',
    gated T S' c'
    /\ (forall x, x ∈ S -> x ∈ S')
    /\ (forall x, x ∈ swaps ls -> x ∈ S').
Proof.
  intros HI HG Hex. revert P S HI HG.
  induction Hex as [c|c l c1 ls c2 Hstep Hex IH]; intros P S HI HG.
  - exists S. split; [done|]. split; [done|]. by intros x ?%elem_of_nil.
  - destruct (step_sound T seed P c l c1 HI Hstep) as (HI1 & _).
    destruct (IH _ _ HI1 (gated_step P S c l c1 HI HG Hstep)) as (S' & HG' & Hsub & Hls).
    exists S'. split; [done|]. split.
    + intros x Hx. apply Hsub, elem_of_app. by right.
    + intros x Hx. rewrite (swaps_cons l ls) in Hx.
      apply elem_of_app in Hx as [Hx|Hx]; [|by apply Hls].
      apply Hsub, elem_of_app. by left.
Qed.

End GateProofs.

(** X10.  Validation gates publication, under any interleaving.  In every
    execution of concurrent callers on a seeded container with a validator
    attached and an empty trace, every swap of the history publishes a
    pointer on which the validator was called and answered nil. *)
Theorem validation_gates_publication
    (s0 : state) (a0 : addr) (seed : object) (f : iface -> heap -> option error)
    (ls : list label) (c : config) :
  ptr (dyn s0) = Some a0 ->
  mem s0 !! a0 = Some seed ->
  validator (dyn s0) = Some f ->
  trace s0 = [] ->
  exec (Config s0 []) ls c ->
  forall old new,
    (old, new) ∈ swaps ls ->
    EvValidate (Dyn (TPtr (structType (dyn s0))) (VPtr new)) None ∈ trace (shared c).
Proof.
  intros Hp0 Hseed Hf Htr0 Hex old new Hin.
  set (T := structType (dyn s0)).
  assert (HI0 : inv T seed [a0] (Config s0 [])).
  { constructor; cbn [shared threads].
    - reflexivity.
    - exists a0. split; [done|]. apply elem_of_cons. by left.
    - intros a ->%list_elem_of_singleton. exists seed. split; [done|]. by left.
    - intros i t [=].
    - intros i j ti tj b [=]. }
  assert (HG0 : gated T [] (Config s0 [])).
  { constructor; cbn [shared threads].
    - by rewrite Hf.
    - intros i v [=].
    - by intros ? ? ?%elem_of_nil. }
  destruct (gated_exec T seed _ _ _ _ _ HI0 HG0 Hex) as (S' & HG & _ & Hsub).
  apply (gt_swapped T S' c HG old new). by apply Hsub.
Qed.

End Properties.

(** * The statements at the [Timeout] configuration *)

#[local] Existing Instance Example.toy.
#[local] Existing Instance Example.toy_registry.

(** [Set] of [{"Timeout": 60}] on the default [{Timeout: 30}]. *)
Lemma Set_read_after_write_witness :
  decoded (Example.timeout 60) Example.s0 = (VStruct [VInt 60], None)
  /\ verdict (VStruct [VInt 60]) Example.s0 = None
  /\ exists s' v,
       Set_ (Example.timeout 60) Example.s0 = Ok (None, s')
       /\ Get s' = Ok (v, s')
       /\ deref (mem s') v = Some (Object Example.Settings (VStruct [VInt 60]))
       /\ forall n, repeatM n Get s' = Ok (replicate n v, s').
Proof.
  split; [reflexivity|]. split; [reflexivity|].
  apply (Set_read_after_write (Example.timeout 60) Example.s0 (VStruct [VInt 60]));
    reflexivity.
Defined.

(** [Set] of [{"Timeout": "oops"}]. *)
Lemma Set_decode_failure_witness :
  exists s' v,
    Set_ Example.oops Example.s1
    = Ok (Some "json: cannot unmarshal into Go struct field Timeout of type int", s')
    /\ Get Example.s1 = Ok (v, Example.s1)
    /\ Get s' = Ok (v, s')
    /\ (forall o, deref (mem Example.s1) v = Some o -> deref (mem s') v = Some o)
    /\ dyn s' = dyn Example.s1
    /\ trace s' = trace Example.s1.
Proof.
  apply (Set_decode_failure Example.oops Example.s1 (VStruct [VInt 0])).
  reflexivity.
Defined.

(** [Set] of [{"Timeout": -5}] under the validator that wants a positive
    timeout. *)
Lemma Set_runs_validator_witness :
  exists s' evs,
    Set_ (Example.timeout (-5)) Example.s1 = Ok (Some "timeout must be positive", s')
    /\ trace s' = trace Example.s1 ++ evs
    /\ validated evs = [(candidate Example.s1, Some "timeout must be positive")]
    /\ deref (mem (staged (VStruct [VInt (-5)]) Example.s1)) (candidate Example.s1)
       = Some (Object Example.Settings (VStruct [VInt (-5)]))
    /\ forall e, Some "timeout must be positive" = Some e ->
         dyn s' = dyn Example.s1
         /\ started evs = []
         /\ exists v, Get Example.s1 = Ok (v, Example.s1) /\ Get s' = Ok (v, s')
                      /\ forall o, deref (mem Example.s1) v = Some o ->
                                   deref (mem s') v = Some o.
Proof.
  apply (Set_runs_validator (Example.timeout (-5)) Example.s1 (VStruct [VInt (-5)])
           Example.positive_timeout); reflexivity.
Defined.

(** [Set] of [{"Timeout": 5}] with the notifier [onChange] attached. *)
Lemma Set_notifies_witness :
  exists r s' evs oldValue newValue,
    Set_ (Example.timeout 5) Example.s1 = Ok (r, s')
    /\ trace s' = trace Example.s1 ++ evs
    /\ Get Example.s1 = Ok (oldValue, Example.s1)
    /\ Get s' = Ok (newValue, s')
    /\ started evs = match r with
                     | None => [(Example.onChange, oldValue, newValue)]
                     | Some _ => []
                     end.
Proof.
  apply (Set_notifies (Example.timeout 5) Example.s1 Example.onChange).
  reflexivity.
Defined.

(** A nil [*Config] has a pointer-to-struct type and still fails the
    check. *)
Lemma DynJSON_nil_struct_pointer_panics :
  struct_pointer_type Example.nil_pointer = true
  /\ DynJSON Example.flags0 "timeouts" Example.nil_pointer "request timeouts"
     = Panic "DynJSON value must be a pointer to a struct".
Proof. split; reflexivity. Qed.

(** An integer is refused, the pointer to the default is registered. *)
Lemma DynJSON_check_witness :
  DynJSON Example.flags0 "timeouts" (Dyn TInt (VInt 30)) "request timeouts"
  = Panic "DynJSON value must be a pointer to a struct"
  /\ DynJSON Example.flags0 "timeouts" Example.default "request timeouts"
     = Ok (Example.d0, Example.flags1).
Proof.
  split.
  - apply (DynJSON_check Example.flags0 "timeouts" (Dyn TInt (VInt 30)) "request timeouts").
    reflexivity.
  - apply (proj2 (DynJSON_check Example.flags0 "timeouts" Example.default "request timeouts")
             [("Timeout", TInt)] 0).
    reflexivity.
Defined.

Lemma DynJSON_publishes_seed_witness :
  exists fields a,
    Example.default = Dyn (TPtr (TStruct fields)) (VPtr (Some a))
    /\ structType Example.d0 = TStruct fields
    /\ ptr Example.d0 = Some a
    /\ validator Example.d0 = None
    /\ notifier Example.d0 = None
    /\ forall h tr,
         Get (State h Example.d0 tr) = Ok (Example.default, State h Example.d0 tr)
         /\ deref h Example.default = h !! a.
Proof.
  apply (DynJSON_publishes_seed Example.flags0 "timeouts" Example.default "request timeouts"
           Example.d0 Example.flags1).
  reflexivity.
Defined.

Lemma Set_null_witness :
  exists s' v,
    Set_ "null" Example.s0 = Ok (None, s')
    /\ ptr (dyn s') = Some 1
    /\ Get s' = Ok (v, s')
    /\ deref (mem s') v = Some (Object Example.Settings (VStruct [VInt 0])).
Proof. apply (Set_null Example.s0); reflexivity. Defined.

(** A [Get] that loads while a [Set] is half-way through decoding, and a
    [Set] that swaps before a [Get] loads. *)
Lemma Get_linearizable_witness :
  (let c1 := Example.reach Example.to_load Example.k0 in
   let c2 := Example.reach [CMove 1] c1 in
   let c3 := Example.reach Example.from_load c2 in
   Example.history [CMove 1] c1 = [LLoad 1 (Some 0)]
   /\ mem (shared c1) !! 1 = Some (Object Example.Settings Example.half_written)
   /\ ptr (dyn (shared c3)) = Some 1
   /\ threads c2 !! 1 = Some (TGet (GetDone Example.default))
   /\ exists a o,
        Some 0 = Some a
        /\ whole Example.Settings Example.seed o
        /\ mem (shared c1) !! a = Some o
        /\ mem (shared c3) !! a = Some o)
  /\ (let c1 := Example.reach Example.to_swap Example.k0 in
      let c2 := Example.reach [CMove 0] c1 in
      let c3 := Example.reach Example.from_swap c2 in
      Example.history [CMove 0] c1 = [LSwap 0 (Some 0) (Some 1)]
      /\ Example.history Example.from_swap c2 = [LLoad 1 (Some 1); LTau 0]
      /\ exists b o,
           Some 1 = Some b
           /\ decoded_whole Example.Settings o
           /\ mem (shared c1) !! b = Some o
           /\ mem (shared c3) !! b = Some o).
Proof.
  split.
  - set (c1 := Example.reach Example.to_load Example.k0).
    set (c2 := Example.reach [CMove 1] c1).
    set (c3 := Example.reach Example.from_load c2).
    assert (E1 : run Example.to_load Example.k0
                 = Some (Example.history Example.to_load Example.k0, c1))
      by reflexivity.
    assert (E2 : sched (CMove 1) c1 = Some (LLoad 1 (Some 0), c2))
      by reflexivity.
    assert (E3 : run Example.from_load c2 = Some (Example.history Example.from_load c2, c3))
      by reflexivity.
    destruct (Get_linearizable Example.s1 0 Example.seed _ c1 _ c2 _ c3
                eq_refl eq_refl (run_sound _ _ _ _ E1) (sched_sound _ _ _ _ E2)
                (run_sound _ _ _ _ E3)) as (_ & _ & _ & _ & Hload).
    destruct (Hload 1 (Some 0) eq_refl) as (_ & _ & Hth & Hw).
    cbv zeta. split; [reflexivity|]. split; [reflexivity|].
    split; [reflexivity|]. split; [exact Hth|exact Hw].
  - set (c1 := Example.reach Example.to_swap Example.k0).
    set (c2 := Example.reach [CMove 0] c1).
    set (c3 := Example.reach Example.from_swap c2).
    assert (E1 : run Example.to_swap Example.k0
                 = Some (Example.history Example.to_swap Example.k0, c1))
      by reflexivity.
    assert (E2 : sched (CMove 0) c1 = Some (LSwap 0 (Some 0) (Some 1), c2))
      by reflexivity.
    assert (E3 : run Example.from_swap c2 = Some (Example.history Example.from_swap c2, c3))
      by reflexivity.
    destruct (Get_linearizable Example.s1 0 Example.seed _ c1 _ c2 _ c3
                eq_refl eq_refl (run_sound _ _ _ _ E1) (sched_sound _ _ _ _ E2)
                (run_sound _ _ _ _ E3)) as (_ & _ & _ & Hswap & _).
    destruct (Hswap 0 (Some 0) (Some 1) eq_refl) as (_ & _ & Hw).
    cbv zeta. split; [reflexivity|]. split; [reflexivity|].
    exact Hw.
Defined.

(** The scenario of the description: [{"Timeout": 60}] is published at
    address 1, [{"Timeout": "oops"}] and then [{"Timeout": -5}] are
    refused, and [Get] keeps returning the pointer to [{Timeout: 60}]. *)
Example scenario_runs :
  exists s,
    Example.scenario Example.s0
    = Ok (([None;
            Some "json: cannot unmarshal into Go struct field Timeout of type int";
            Some "timeout must be positive"],
           [Dyn (TPtr Example.Settings) (VPtr (Some 1));
            Dyn (TPtr Example.Settings) (VPtr (Some 1));
            Dyn (TPtr Example.Settings) (VPtr (Some 1))]), s)
    /\ mem s !! 1 = Some (Object Example.Settings (VStruct [VInt 60]))
    /\ mem s !! 0 = Some Example.seed.
Proof. eexists. split; [reflexivity|]. split; reflexivity. Qed.

(** The registered default is well typed, and stays so through two updates
    and a read. *)
Lemma unsafe_cast_sound_witness :
  well_typed (State Example.store0 Example.d0 [])
  /\ exists s' a o,
       run_ops Example.session Example.s0 = Ok (tt, s')
       /\ Get s' = Ok (Dyn (TPtr Example.Settings) (VPtr (Some a)), s')
       /\ mem s' !! a = Some o
       /\ otype o = Example.Settings.
Proof.
  destruct unsafe_cast_sound as [Hseed Hrun].
  assert (Hw : well_typed (State Example.store0 Example.d0 [])).
  { apply (Hseed Example.flags0 "timeouts" Example.default "request timeouts"
             Example.d0 Example.flags1 Example.store0 [] Example.Settings 0 Example.seed);
      reflexivity. }
  split; [exact Hw|]. apply (Hrun Example.session Example.s0 Hw).
Defined.

(** Three updates of the container with the notifier [onChange]: the
    second does not decode. *)
Lemma Sets_notifications_linked_witness :
  exists rs s' evs v v',
    Sets Example.batch Example.s1 = Ok (rs, s')
    /\ length rs = 3
    /\ trace s' = trace Example.s1 ++ evs
    /\ Get Example.s1 = Ok (v, Example.s1)
    /\ Get s' = Ok (v', s')
    /\ linked v (started evs) v'
    /\ Forall (fun n => n.1.1 = Example.onChange) (started evs)
    /\ length (started evs) = successes rs.
Proof.
  apply (Sets_notifications_linked Example.batch Example.s1 Example.onChange).
  reflexivity.
Defined.

Lemma Sets_last_writer_wins_witness :
  exists rs s' v',
    Sets Example.batch Example.s1 = Ok (rs, s')
    /\ length rs = 3
    /\ Get s' = Ok (v', s')
    /\ deref (mem s') v'
       = Some (last_published Example.Settings Example.batch rs Example.seed).
Proof.
  apply (Sets_last_writer_wins Example.batch Example.s1 Example.default Example.seed);
    reflexivity.
Defined.

(** The default [{Timeout: 30}] rendered and set again. *)
Lemma Set_String_round_trip_witness :
  exists s' v',
    (out ← String_; Set_ out) Example.s0 = Ok (None, s')
    /\ Get s' = Ok (v', s')
    /\ v' <> Example.default
    /\ deref (mem s') v' = Some Example.seed
    /\ deref (mem s') Example.default = Some Example.seed.
Proof.
  apply (Set_String_round_trip Example.s0 Example.default (VStruct [VInt 30])
           (Example.key +:+ "30}")); reflexivity.
Defined.

(** The second schedule run to its end: the caller of [Set] has returned
    nil and swapped once, the caller of [Get] never. *)
Lemma one_swap_per_successful_Set_witness :
  threads (Example.reach Example.to_end Example.k0) !! 0 = Some (TSet (SetDone None))
  /\ swaps_by 0 (Example.history Example.to_end Example.k0) = 1
  /\ swaps_by 1 (Example.history Example.to_end Example.k0) = 0.
Proof.
  assert (E : run Example.to_end Example.k0
              = Some (Example.history Example.to_end Example.k0,
                      Example.reach Example.to_end Example.k0)) by reflexivity.
  split; [reflexivity|]. split.
  - exact (one_swap_per_successful_Set Example.s1 _ _ 0 (run_sound _ _ _ _ E)).
  - exact (one_swap_per_successful_Set Example.s1 _ _ 1 (run_sound _ _ _ _ E)).
Defined.

Lemma notifications_match_swaps_witness :
  swaps (Example.history Example.to_end Example.k0) = [(Some 0, Some 1)]
  /\ length (started (trace (shared (Example.reach Example.to_end Example.k0)))) <= 1
  /\ forall f o n,
       (f, o, n) ∈ started (trace (shared (Example.reach Example.to_end Example.k0))) ->
       notifier (dyn Example.s1) = Some f
       /\ exists old new,
            (old, new) ∈ swaps (Example.history Example.to_end Example.k0)
            /\ o = Dyn (TPtr Example.Settings) (VPtr old)
            /\ n = Dyn (TPtr Example.Settings) (VPtr new).
Proof.
  assert (E : run Example.to_end Example.k0
              = Some (Example.history Example.to_end Example.k0,
                      Example.reach Example.to_end Example.k0)) by reflexivity.
  split; [reflexivity|].
  exact (notifications_match_swaps Example.s1 0 Example.seed _ _
           eq_refl eq_refl eq_refl (run_sound _ _ _ _ E)).
Defined.

(** In the second schedule the validator accepted the pointer that the
    swap published. *)
Lemma validation_gates_publication_witness :
  EvValidate (Dyn (TPtr Example.Settings) (VPtr (Some 1))) None
  ∈ trace (shared (Example.reach Example.to_end Example.k0)).
Proof.
  assert (E : run Example.to_end Example.k0
              = Some (Example.history Example.to_end Example.k0,
                      Example.reach Example.to_end Example.k0)) by reflexivity.
  apply (validation_gates_publication Example.s1 0 Example.seed Example.positive_timeout
           _ _ eq_refl eq_refl eq_refl eq_refl (run_sound _ _ _ _ E) (Some 0) (Some 1)).
  change (swaps (Example.history Example.to_end Example.k0)) with [(Some 0, Some 1)].
  apply elem_of_cons. by left.
Defined.
